(** * Watershed delineation over the NHD flow network

    A shallow embedding of [delineate_watershed.py]: the directed flow graph
    the script builds with networkx, the upstream traversal behind
    [nx.ancestors], the coverage ratio and merged polygon computed by
    [get_watershed_boundaries], the per-gage loop, and [write_geodatabase].

    Node ids (COMIDs) are Python ints, modelled as [Z].  A networkx [DiGraph]
    keeps three dicts with the same key set ([_node], [_succ], [_pred]); the
    inner adjacency dicts are modelled by their key lists in insertion
    order.  Exceptions are values of a sum type.  The numeric GEOS kernels
    (unary union, centroid coordinates) are operations of a class, so every
    result holds for whatever they compute. *)

From Stdlib Require Import QArith.
From stdpp Require Import gmap strings list fin_maps relations.

Open Scope Z_scope.

(** ** Exceptions *)

(** [networkx.NetworkXError("The node n is not in the digraph.")], the only
    exception the modelled code raises itself. *)
Inductive Exc : Type :=
  | NetworkXError (n : Z).

Definition result (A : Type) : Type := (Exc + A)%type.

(** ** The directed graph *)

Module DiGraph.

Record t : Type := mk {
  node : gset Z;             (* keys of G._node *)
  succ : gmap Z (list Z);    (* G._succ: u -> keys of G._succ[u] *)
  pred : gmap Z (list Z)     (* G._pred: v -> keys of G._pred[v] *)
}.

(** [nx.DiGraph()] *)
Definition empty : t := mk ∅ ∅ ∅.

(** [d[k] = datadict] on an inner adjacency dict: an existing key keeps its
    place, a new key goes last. *)
Definition dict_set (k : Z) (d : list Z) : list Z :=
  if decide (k ∈ d) then d else d ++ [k].

(** One turn of the loop of [add_nodes_from]. *)
Definition add_node (G : t) (n : Z) : t :=
  if decide (n ∈ node G) then G
  else mk ({[n]} ∪ node G) (<[n := []]> (succ G)) (<[n := []]> (pred G)).

Definition add_nodes_from (G : t) (nodes : list Z) : t :=
  foldl add_node G nodes.

(** The [if u not in self._succ] block of [add_edges_from]. *)
Definition touch (G : t) (u : Z) : t :=
  match succ G !! u with
  | Some _ => G
  | None => mk ({[u]} ∪ node G) (<[u := []]> (succ G)) (<[u := []]> (pred G))
  end.

(** One turn of the loop of [add_edges_from]:
    [self._succ[u][v] = datadict; self._pred[v][u] = datadict]. *)
Definition add_edge (G : t) (e : Z * Z) : t :=
  let '(u, v) := e in
  let G1 := touch (touch G u) v in
  mk (node G1)
     (alter (dict_set v) u (succ G1))
     (alter (dict_set u) v (pred G1)).

Definition add_edges_from (G : t) (ebunch : list (Z * Z)) : t :=
  foldl add_edge G ebunch.

(** [n in G] *)
Definition has_node (G : t) (n : Z) : bool := bool_decide (n ∈ node G).

(** [len(G)] *)
Definition len (G : t) : nat := size (node G).

(** [G.predecessors(n)]: [iter(self._pred[n])], a [KeyError] becoming
    [NetworkXError]. *)
Definition predecessors (G : t) (n : Z) : result (list Z) :=
  match pred G !! n with
  | Some d => inr d
  | None => inl (NetworkXError n)
  end.

(** [(u, v) in G.edges] *)
Definition has_edge (G : t) (u v : Z) : Prop :=
  ∃ d, succ G !! u = Some d ∧ v ∈ d.

(** [u in G.pred[v]] *)
Definition has_pred (G : t) (v u : Z) : Prop :=
  ∃ d, pred G !! v = Some d ∧ u ∈ d.

(** The representation invariant of a networkx digraph: the three dicts
    share their keys, and [_pred] mirrors [_succ]. *)
Record wf (G : t) : Prop := {
  wf_succ : dom (succ G) = node G;
  wf_pred : dom (pred G) = node G;
  wf_mirror : ∀ u v, has_edge G u v ↔ has_pred G v u
}.

End DiGraph.

(** ** Breadth-first traversal ([networkx.generic_bfs_edges]) *)

(** The generator's local state: [seen], the layer under construction
    [next_parents_children], and the edges yielded so far. *)
Record bfs_state : Type := mkBfs {
  seen : gset Z;
  next_parents_children : list (Z * list Z);
  yielded : list (Z * Z)
}.

(** [for child in children: if child not in seen: seen.add(child);
    next_parents_children.append((child, neighbors(child)));
    yield parent, child] with [neighbors = G.predecessors]. *)
Fixpoint scan_children (G : DiGraph.t) (parent : Z) (children : list Z)
    (st : bfs_state) : result bfs_state :=
  match children with
  | [] => inr st
  | child :: rest =>
      if decide (child ∈ seen st) then scan_children G parent rest st
      else
        match DiGraph.predecessors G child with
        | inl e => inl e
        | inr nb =>
            scan_children G parent rest
              (mkBfs ({[child]} ∪ seen st)
                     (next_parents_children st ++ [(child, nb)])
                     (yielded st ++ [(parent, child)]))
        end
  end.

(** [for parent, children in this_parents_children: ...;
    if len(seen) == n: return].  The flag tells whether the generator
    returned from inside the layer. *)
Fixpoint scan_layer (G : DiGraph.t) (n : nat) (this : list (Z * list Z))
    (st : bfs_state) : result (bool * bfs_state) :=
  match this with
  | [] => inr (false, st)
  | (parent, children) :: rest =>
      match scan_children G parent children st with
      | inl e => inl e
      | inr st' =>
          if decide (size (seen st') = n) then inr (true, st')
          else scan_layer G n rest st'
      end
  end.

(** [while next_parents_children and depth < depth_limit: ...; depth += 1];
    [fuel] is [depth_limit - depth]. *)
Fixpoint bfs_loop (G : DiGraph.t) (n : nat) (fuel : nat) (st : bfs_state)
    : result (list (Z * Z)) :=
  match fuel with
  | O => inr (yielded st)
  | S fuel' =>
      match next_parents_children st with
      | [] => inr (yielded st)
      | this =>
          match scan_layer G n this (mkBfs (seen st) [] (yielded st)) with
          | inl e => inl e
          | inr (true, st') => inr (yielded st')
          | inr (false, st') => bfs_loop G n fuel' st'
          end
      end
  end.

(** [nx.bfs_edges(G, source, reverse=True)]: [generic_bfs_edges] with
    [neighbors = G.predecessors] and [depth_limit = len(G)]. *)
Definition bfs_edges_reverse (G : DiGraph.t) (source : Z) : result (list (Z * Z)) :=
  match DiGraph.predecessors G source with
  | inl e => inl e
  | inr nb =>
      bfs_loop G (DiGraph.len G) (DiGraph.len G)
        (mkBfs {[source]} [(source, nb)] [])
  end.

(** [nx.ancestors(G, source)]:
    [{child for parent, child in nx.bfs_edges(G, source, reverse=True)}]. *)
Definition ancestors (G : DiGraph.t) (source : Z) : result (gset Z) :=
  match bfs_edges_reverse G source with
  | inl e => inl e
  | inr edges => inr (list_to_set (edges.*2))
  end.

(** ** Building the graph from the flow table (script lines 122-130) *)

(** A row of [flowtable[['comid','tocomid']]]. *)
Definition flowtable_t : Type := list (Z * Z).

(** [flowtable[~terminal_flows][['comid','tocomid']]] with
    [terminal_flows = (flowtable['tocomid'] == 0)]. *)
Definition edges (flowtable : flowtable_t) : list (Z * Z) :=
  filter (λ row, row.2 ≠ 0) flowtable.

Definition G (flowtable : flowtable_t) : DiGraph.t :=
  DiGraph.add_edges_from
    (DiGraph.add_nodes_from DiGraph.empty (flowtable.*1))
    (edges flowtable).

(** ** Geometries (shapely) *)

(** A coordinate pair; the rationals stand for the floats of shapely. *)
Definition coord : Type := (Q * Q)%type.

(** The shapely geometry classes, as data. *)
#[local] Set Warnings "-register-all".
Inductive Geometry : Type :=
  | Point (xy : option coord)                 (* [None]: POINT EMPTY *)
  | LineString (cs : list coord)
  | LinearRing (cs : list coord)
  | Polygon (shell : list coord) (holes : list (list coord))
  | MultiPoint (points : list Geometry)
  | MultiLineString (lines : list Geometry)
  | MultiPolygon (polygons : list Geometry)
  | GeometryCollection (geoms : list Geometry).

(** [feature.geom_type] *)
Definition geom_type (g : Geometry) : string :=
  match g with
  | Point _ => "Point"
  | LineString _ => "LineString"
  | LinearRing _ => "LinearRing"
  | Polygon _ _ => "Polygon"
  | MultiPoint _ => "MultiPoint"
  | MultiLineString _ => "MultiLineString"
  | MultiPolygon _ => "MultiPolygon"
  | GeometryCollection _ => "GeometryCollection"
  end.

(** GEOMETRYCOLLECTION EMPTY, what shapely returns for the union of
    nothing. *)
Definition empty_geometry : Geometry := GeometryCollection [].

(** The numeric kernels of GEOS that the script reaches through shapely and
    geopandas.  What they compute is floating-point geometry and stays
    outside the embedding. *)
Class Geos : Type := {
  unary_union : list Geometry → Geometry;   (* GEOSUnaryUnion of a non-empty array *)
  centroid_xy : Geometry → option coord      (* GEOSGetCentroid *)
}.

(** [GeoSeries.union_all()], that is [shapely.union_all(geoms)]. *)
Definition union_all `{Geos} (geoms : list Geometry) : Geometry :=
  match geoms with
  | [] => empty_geometry
  | _ => unary_union geoms
  end.

(** [GeoSeries.centroid], elementwise: always a Point. *)
Definition centroid `{Geos} (g : Geometry) : Geometry := Point (centroid_xy g).

(** ** Data frames *)

(** A (geo)dataframe: one entry per row, the non-geometry columns [A]
    beside the ['geometry'] column. *)
Definition GeoDataFrame (A : Type) : Type := list (A * Geometry).

(** [gdf['geometry']] *)
Definition geometry {A} (gdf : GeoDataFrame A) : list Geometry := gdf.*2.

(** [gdf['geometry'] = values] *)
Definition set_geometry {A} (gdf : GeoDataFrame A) (values : list Geometry)
    : GeoDataFrame A :=
  zip (gdf.*1) values.

(** [Series.isin(values)] *)
Definition isin (series values : list Z) : list bool :=
  (λ x, bool_decide (x ∈ values)) <$> series.

(** [Series.mean()] of a boolean series; [None] is NaN (empty series). *)
Definition mean (bs : list bool) : option Q :=
  match bs with
  | [] => None
  | _ => Some (Z.of_nat (length (filter (λ b, b = true) bs))
               # Pos.of_nat (length bs))%Q
  end.

(** ** [get_watershed_boundaries] *)

(** Lines 22-24, for a given order of [list(nx.ancestors(G, source_comid))].
    [catchments] holds its COMID column beside the geometry. *)
Definition watershed_of `{Geos} (source_comid : Z) (upstream_comids : list Z)
    (catchments : GeoDataFrame Z) : Geometry * option Q :=
  let watershed_comids := [source_comid] ++ upstream_comids in
  let proportion_matched := mean (isin watershed_comids (catchments.*1)) in
  let watershed_polygon :=
    union_all (geometry (filter (λ row, row.1 ∈ watershed_comids) catchments)) in
  (watershed_polygon, proportion_matched).

Definition get_watershed_boundaries `{Geos} (source_comid : Z) (G : DiGraph.t)
    (catchments : GeoDataFrame Z) : result (Geometry * option Q) :=
  match ancestors G source_comid with
  | inl e => inl e
  | inr anc => inr (watershed_of source_comid (elements anc) catchments)
  end.

(** ** The loop over the gages (script lines 148-157) *)

(** The columns of [watersheds] the loop reads and writes;
    [proportion_matched = None] is the [np.nan] of line 148. *)
Record station : Type := mkStation {
  site_no : string;
  COMID : Z;
  proportion_matched : option Q
}.






(** ** [write_geodatabase] *)

(** [Series.unique()]: first occurrences, in order. *)
Fixpoint unique (l : list string) : list string :=
  match l with
  | [] => []
  | x :: l' => x :: filter (λ y, y ≠ x) (unique l')
  end.

Fixpoint insert_sorted (x : string) (l : list string) : list string :=
  match l with
  | [] => [x]
  | y :: l' => if String.leb x y then x :: l else y :: insert_sorted x l'
  end.

(** [list.sort()] on strings. *)
Definition sort (l : list string) : list string := foldr insert_sorted [] l.

(** A call of [gdf.to_file(filepath, layer=..., driver=...)] with the frame
    as it is at the call. *)
Record to_file_call (A : Type) : Type := mkToFile {
  written : GeoDataFrame A;
  filepath_of : string;
  layer_of : string;
  driver_of : string
}.
Arguments mkToFile {A}.
Arguments written {A}.
Arguments filepath_of {A}.
Arguments layer_of {A}.
Arguments driver_of {A}.

(** Frames are Python objects reached through references: a heap of
    frames, the lines printed, the writer calls made. *)
Record world (A : Type) : Type := mkWorld {
  heap : gmap positive (GeoDataFrame A);
  stdout : list string;
  files : list (to_file_call A)
}.
Arguments mkWorld {A}.
Arguments heap {A}.
Arguments stdout {A}.
Arguments files {A}.

(** The comprehension of line 49. *)
Definition upcast (feature : Geometry) : Geometry :=
  if decide (geom_type feature = "Polygon") then MultiPolygon [feature]
  else feature.

(** [gdf] is a reference to the caller's frame (always live in Python, so
    the [None] branch is never taken). *)
Definition write_geodatabase `{Geos} {A} (W : world A) (gdf : positive)
    (filepath layer_name : string) (polygons_as_points : bool) : world A :=
  match heap W !! gdf with
  | None => W
  | Some frame =>
      let geom_types := sort (unique (geom_type <$> geometry frame)) in
      let W1 :=
        if polygons_as_points then
          if existsb (λ x, bool_decide (x ∈ geom_types)) ["Polygon"; "MultiPolygon"]
          then mkWorld (<[gdf := set_geometry frame (centroid <$> geometry frame)]> (heap W))
                       (stdout W) (files W)
          else W
        else if decide (1 < length geom_types)%nat then
          let W' := mkWorld (heap W)
                      (stdout W ++ ["warning: multiple geometry types in geodataframe"])
                      (files W) in
          if decide (geom_types = ["MultiPolygon"; "Polygon"]) then
            mkWorld (<[gdf := set_geometry frame (upcast <$> geometry frame)]> (heap W'))
                    (stdout W' ++ ["upcasting polygons to multipolygons to achieve consistency"])
                    (files W')
          else W'
        else W in
      match heap W1 !! gdf with
      | None => W1
      | Some frame1 =>
          mkWorld (heap W1) (stdout W1)
                  (files W1 ++ [mkToFile frame1 filepath layer_name "OpenFileGDB"])
      end
  end.


(** ** Vocabulary of the statements *)

(** [n] is reachable from [m] by following edges forward. *)
Definition reaches (G : DiGraph.t) (m n : Z) : Prop :=
  rtc (DiGraph.has_edge G) m n.


(** [upstream = ancestors(source) ∪ {source}] *)
Definition upstream (anc : gset Z) (source : Z) : gset Z := anc ∪ {[source]}.

(** The ids of a set that have a row in the geometry store. *)
Definition matched (ids : gset Z) (catchments : GeoDataFrame Z) : gset Z :=
  filter (λ x, x ∈ catchments.*1) ids.


(** Water flows from segment [a] into segment [b]: a row of the flow table
    that is not a terminal flow. *)
Definition flows_to (flowtable : flowtable_t) (a b : Z) : Prop :=
  (a, b) ∈ flowtable ∧ b ≠ 0.

(** ** The invariant of the traversal *)

(** Every predecessor of [x] has been seen. *)
Definition closed (G : DiGraph.t) (S : gset Z) (x : Z) : Prop :=
  ∀ u, DiGraph.has_pred G x u → u ∈ S.

(** What holds of the generator's state between two steps: [pending] is what
    is left of the layer being read, [base] the size of [seen] when that
    layer was started. *)
Record bfs_inv (G : DiGraph.t) (source : Z) (pending : list (Z * list Z))
    (base : nat) (st : bfs_state) : Prop := {
  inv_source : source ∈ seen st;
  inv_nodes : seen st ⊆ DiGraph.node G;
  inv_up : ∀ x, x ∈ seen st → rtc (DiGraph.has_pred G) source x;
  inv_front : ∀ x, x ∈ seen st →
    closed G (seen st) x ∨ x ∈ pending.*1 ∨ x ∈ (next_parents_children st).*1;
  inv_adj : ∀ v d, (v, d) ∈ pending ++ next_parents_children st →
    DiGraph.pred G !! v = Some d ∧ v ∈ seen st;
  inv_nodup : NoDup (yielded st).*2;
  inv_yielded : ∀ x, x ∈ (yielded st).*2 ↔ x ∈ seen st ∧ x ≠ source;
  inv_count : size (seen st) = (base + length (next_parents_children st))%nat
}.

(** An instance of the kernels that leaves the union unevaluated and finds
    no centroid; closed examples are evaluated with it. *)
Definition geos_unevaluated : Geos :=
  {| unary_union := GeometryCollection; centroid_xy := λ _, None |}.

(** ** Sample data *)

(** The flow table of the worked example: segment 1 is the outlet, 2 drains
    to 1, 3 and 4 drain to 2. *)
Definition sample_flowtable : flowtable_t := [(1, 0); (2, 1); (3, 2); (4, 2)].

Definition unit_square (x y : Z) : Geometry :=
  Polygon [(inject_Z x, inject_Z y); (inject_Z (x + 1), inject_Z y);
           (inject_Z (x + 1), inject_Z (y + 1)); (inject_Z x, inject_Z (y + 1));
           (inject_Z x, inject_Z y)] [].

(** Catchments for segments 1, 2 and 3; none for segment 4. *)
Definition sample_catchments : GeoDataFrame Z :=
  [(1, unit_square 0 0); (2, unit_square 1 0); (3, unit_square 2 0)].

(** Two gages: the first sits in a catchment whose id (99) is not in the
    flow table, the second on segment 1. *)
Definition sample_stations : GeoDataFrame station :=
  [(mkStation "09999999" 99 None, Point (Some (inject_Z 9, inject_Z 9)));
   (mkStation "01234567" 1 None, Point (Some (inject_Z 0, inject_Z 0)))].

(** The script's two frames as objects on the heap: [stations] (points) at
    reference 1, a [watersheds] frame mixing a polygon and a multipolygon
    at reference 2. *)
Definition sample_watersheds : GeoDataFrame station :=
  [(mkStation "01234567" 1 (Some (3 # 4)%Q), unit_square 0 0);
   (mkStation "02345678" 2 (Some 1%Q), MultiPolygon [unit_square 1 0; unit_square 3 0])].

Definition sample_world : world station :=
  mkWorld (<[2%positive := sample_watersheds]> {[1%positive := sample_stations]}) [] [].

(** * Properties *)

(** ** The graph invariant *)

Module DiGraphFacts.
Import DiGraph.
#[local] Arguments add_edge : simpl never.
#[local] Arguments add_node : simpl never.

Lemma wf_empty : wf empty.
Proof.
  split; [set_solver | set_solver |].
  intros u v; split; intros (d & Hd & _); simpl in Hd; by rewrite lookup_empty in Hd.
Qed.

Lemma has_edge_node (G : t) u v : wf G → has_edge G u v → u ∈ node G ∧ v ∈ node G.
Proof.
  intros Hwf He. split.
  - destruct He as (d & Hd & _). rewrite <- (wf_succ _ Hwf). apply elem_of_dom; eauto.
  - apply (wf_mirror _ Hwf) in He. destruct He as (d & Hd & _).
    rewrite <- (wf_pred _ Hwf). apply elem_of_dom; eauto.
Qed.

Lemma has_pred_node (G : t) v u : wf G → has_pred G v u → u ∈ node G ∧ v ∈ node G.
Proof. intros Hwf Hp. apply (wf_mirror _ Hwf) in Hp. by apply has_edge_node. Qed.

Lemma predecessors_node (G : t) n :
  wf G → n ∈ node G → ∃ d, predecessors G n = inr d ∧ pred G !! n = Some d.
Proof.
  intros Hwf Hn. rewrite <- (wf_pred _ Hwf) in Hn.
  apply elem_of_dom in Hn as [d Hd]. exists d. unfold predecessors. by rewrite Hd.
Qed.

Lemma predecessors_missing (G : t) n :
  wf G → n ∉ node G → predecessors G n = inl (NetworkXError n).
Proof.
  intros Hwf Hn. rewrite <- (wf_pred _ Hwf) in Hn.
  apply not_elem_of_dom in Hn. unfold predecessors. by rewrite Hn.
Qed.

(** A fresh key in all three dicts. *)
Lemma wf_fresh (G : t) n :
  wf G → n ∉ node G →
  wf (mk ({[n]} ∪ node G) (<[n := []]> (succ G)) (<[n := []]> (pred G))).
Proof.
  intros Hwf Hn. split; simpl.
  - rewrite dom_insert_L. by rewrite (wf_succ _ Hwf).
  - rewrite dom_insert_L. by rewrite (wf_pred _ Hwf).
  - intros u v. unfold has_edge, has_pred; simpl. split.
    + intros (d & Hd & Hv). destruct (decide (n = u)) as [->|Hne].
      * rewrite lookup_insert_eq in Hd. simplify_eq. set_solver.
      * rewrite lookup_insert_ne in Hd by done.
        assert (has_pred G v u) as (d' & Hd' & Hu) by (apply (wf_mirror _ Hwf); by exists d).
        exists d'. split; [|done]. rewrite lookup_insert_ne; [done|].
        intros ->. apply Hn. rewrite <- (wf_pred _ Hwf). apply elem_of_dom; eauto.
    + intros (d & Hd & Hv). destruct (decide (n = v)) as [->|Hne].
      * rewrite lookup_insert_eq in Hd. simplify_eq. set_solver.
      * rewrite lookup_insert_ne in Hd by done.
        assert (has_edge G u v) as (d' & Hd' & Hu) by (apply (wf_mirror _ Hwf); by exists d).
        exists d'. split; [|done]. rewrite lookup_insert_ne; [done|].
        intros ->. apply Hn. rewrite <- (wf_succ _ Hwf). apply elem_of_dom; eauto.
Qed.

Lemma fresh_has_edge (G : t) n a b :
  wf G → n ∉ node G →
  has_edge (mk ({[n]} ∪ node G) (<[n := []]> (succ G)) (<[n := []]> (pred G))) a b
  ↔ has_edge G a b.
Proof.
  intros Hwf Hn. unfold has_edge; simpl. split.
  - intros (d & Hd & Hb). destruct (decide (n = a)) as [->|Hne].
    + rewrite lookup_insert_eq in Hd. simplify_eq. set_solver.
    + rewrite lookup_insert_ne in Hd by done. eauto.
  - intros (d & Hd & Hb). exists d. split; [|done]. rewrite lookup_insert_ne; [done|].
    intros ->. apply Hn. rewrite <- (wf_succ _ Hwf). apply elem_of_dom; eauto.
Qed.

Lemma add_node_wf (G : t) n : wf G → wf (add_node G n).
Proof. intros Hwf. unfold add_node. case_decide; [done|]. by apply wf_fresh. Qed.

Lemma add_node_node (G : t) n : node (add_node G n) = {[n]} ∪ node G.
Proof. unfold add_node. case_decide; simpl; set_solver. Qed.

Lemma add_node_has_edge (G : t) n a b :
  wf G → has_edge (add_node G n) a b ↔ has_edge G a b.
Proof. intros Hwf. unfold add_node. case_decide; [done|]. by apply fresh_has_edge. Qed.

Lemma touch_wf (G : t) u : wf G → wf (touch G u).
Proof.
  intros Hwf. unfold touch. destruct (succ G !! u) eqn:Hu; [done|].
  apply wf_fresh; [done|]. rewrite <- (wf_succ _ Hwf). by apply not_elem_of_dom.
Qed.

Lemma touch_node (G : t) u : wf G → node (touch G u) = {[u]} ∪ node G.
Proof.
  intros Hwf. unfold touch. destruct (succ G !! u) eqn:Hu; simpl; [|done].
  assert (u ∈ node G); [|set_solver].
  rewrite <- (wf_succ _ Hwf). apply elem_of_dom; eauto.
Qed.

Lemma touch_has_edge (G : t) u a b :
  wf G → has_edge (touch G u) a b ↔ has_edge G a b.
Proof.
  intros Hwf. unfold touch. destruct (succ G !! u) eqn:Hu; [done|].
  apply fresh_has_edge; [done|]. rewrite <- (wf_succ _ Hwf). by apply not_elem_of_dom.
Qed.

Lemma elem_of_dict_set k d x : x ∈ dict_set k d ↔ x ∈ d ∨ x = k.
Proof. unfold dict_set. case_decide; set_solver. Qed.

(** Setting key [k] in the inner dict of [i]. *)
Lemma lookup_alter_dict_set (m : gmap Z (list Z)) i k a b :
  is_Some (m !! i) →
  (∃ d, alter (dict_set k) i m !! a = Some d ∧ b ∈ d)
  ↔ (∃ d, m !! a = Some d ∧ b ∈ d) ∨ (a = i ∧ b = k).
Proof.
  intros [di Hi]. destruct (decide (i = a)) as [->|Hne].
  - rewrite lookup_alter_eq, Hi. simpl. split.
    + intros (d & Hd & Hb). simplify_eq. apply elem_of_dict_set in Hb as [?| ->]; eauto.
    + intros [(d & Hd & Hb)|[_ ->]]; simplify_eq;
        (eexists; split; [done|]; apply elem_of_dict_set; auto).
  - rewrite lookup_alter_ne by done. split; [eauto|].
    intros [?|[-> _]]; done.
Qed.

Lemma add_edge_node (G : t) u v :
  wf G → node (add_edge G (u, v)) = {[u; v]} ∪ node G.
Proof.
  intros Hwf. unfold add_edge; simpl.
  rewrite touch_node by by apply touch_wf. rewrite touch_node by done. set_solver.
Qed.

Lemma add_edge_has_edge (G : t) u v a b :
  wf G → has_edge (add_edge G (u, v)) a b ↔ has_edge G a b ∨ (a = u ∧ b = v).
Proof.
  intros Hwf. pose proof (touch_wf _ v (touch_wf _ u Hwf)) as Hwf1.
  unfold has_edge, add_edge; simpl. rewrite lookup_alter_dict_set.
  - fold (has_edge (touch (touch G u) v) a b). by rewrite !touch_has_edge by by try apply touch_wf.
  - apply elem_of_dom. rewrite (wf_succ _ Hwf1).
    rewrite touch_node by by apply touch_wf. rewrite touch_node by done. set_solver.
Qed.

Lemma add_edge_has_pred (G : t) u v a b :
  wf G → has_pred (add_edge G (u, v)) b a ↔ has_edge G a b ∨ (a = u ∧ b = v).
Proof.
  intros Hwf. pose proof (touch_wf _ v (touch_wf _ u Hwf)) as Hwf1.
  unfold has_pred, add_edge; simpl. rewrite lookup_alter_dict_set.
  - fold (has_pred (touch (touch G u) v) b a). rewrite <- (wf_mirror _ Hwf1).
    rewrite !touch_has_edge by by try apply touch_wf. tauto.
  - apply elem_of_dom. rewrite (wf_pred _ Hwf1).
    rewrite touch_node by by apply touch_wf. rewrite touch_node by done. set_solver.
Qed.

Lemma add_edge_wf (G : t) e : wf G → wf (add_edge G e).
Proof.
  intros Hwf. destruct e as [u v].
  pose proof (touch_wf _ v (touch_wf _ u Hwf)) as Hwf1. split.
  - unfold add_edge; simpl. rewrite dom_alter_L. apply (wf_succ _ Hwf1).
  - unfold add_edge; simpl. rewrite dom_alter_L. apply (wf_pred _ Hwf1).
  - intros a b. by rewrite add_edge_has_edge, add_edge_has_pred.
Qed.

Lemma add_nodes_from_wf nodes : ∀ G, wf G → wf (add_nodes_from G nodes).
Proof.
  unfold add_nodes_from. induction nodes as [|n nodes IH]; intros G Hwf; simpl; [done|].
  by apply IH, add_node_wf.
Qed.

Lemma add_nodes_from_node nodes :
  ∀ G, node (add_nodes_from G nodes) = list_to_set nodes ∪ node G.
Proof.
  unfold add_nodes_from. induction nodes as [|n nodes IH]; intros G; simpl; [set_solver|].
  rewrite IH, add_node_node. set_solver.
Qed.

Lemma add_nodes_from_has_edge nodes a b :
  ∀ G, wf G → has_edge (add_nodes_from G nodes) a b ↔ has_edge G a b.
Proof.
  unfold add_nodes_from. induction nodes as [|n nodes IH]; intros G Hwf; simpl; [done|].
  rewrite IH by by apply add_node_wf. by apply add_node_has_edge.
Qed.

Lemma add_edges_from_wf ebunch : ∀ G, wf G → wf (add_edges_from G ebunch).
Proof.
  unfold add_edges_from. induction ebunch as [|e es IH]; intros G Hwf; simpl; [done|].
  by apply IH, add_edge_wf.
Qed.

Lemma add_edges_from_node ebunch :
  ∀ G, wf G →
    node (add_edges_from G ebunch)
    = list_to_set (ebunch.*1) ∪ list_to_set (ebunch.*2) ∪ node G.
Proof.
  unfold add_edges_from. induction ebunch as [|[u v] es IH]; intros G Hwf; simpl; [set_solver|].
  rewrite IH by by apply add_edge_wf. rewrite add_edge_node by done. set_solver.
Qed.

Lemma add_edges_from_has_edge ebunch a b :
  ∀ G, wf G →
    has_edge (add_edges_from G ebunch) a b ↔ has_edge G a b ∨ (a, b) ∈ ebunch.
Proof.
  unfold add_edges_from. induction ebunch as [|[u v] es IH]; intros G Hwf; simpl.
  - set_solver.
  - rewrite IH by by apply add_edge_wf. rewrite add_edge_has_edge by done.
    rewrite elem_of_cons. split; intros H; destruct_or?; simplify_eq; naive_solver.
Qed.

End DiGraphFacts.

(** ** The traversal *)

Section traversal.
Import DiGraph DiGraphFacts.
Context (G : DiGraph.t) (Hwf : wf G) (source : Z).

Lemma closed_mono (S S' : gset Z) x : S ⊆ S' → closed G S x → closed G S' x.
Proof. intros HS Hc u Hu. apply HS, Hc, Hu. Qed.

(** Reading the children of one parent keeps the invariant and sees all of
    them. *)
Lemma scan_children_inv pending base parent children :
  ∀ st,
    bfs_inv G source pending base st →
    parent ∈ seen st →
    (∀ c, c ∈ children → has_pred G parent c) →
    ∃ st', scan_children G parent children st = inr st'
           ∧ bfs_inv G source pending base st'
           ∧ seen st ⊆ seen st'
           ∧ ∀ c, c ∈ children → c ∈ seen st'.
Proof.
  induction children as [|child rest IH]; intros st Hinv Hp Hch; simpl.
  { exists st. split_and!; [done|done|done|]. intros c Hc. by apply elem_of_nil in Hc. }
  destruct (decide (child ∈ seen st)) as [Hin|Hnot].
  - destruct (IH st Hinv Hp) as (st' & Hrun & Hinv' & Hsub & Hall).
    { intros c Hc. apply Hch. by right. }
    exists st'. split_and!; [done|done|done|].
    intros c [->|Hc]%elem_of_cons; [by apply Hsub | by apply Hall].
  - assert (has_pred G parent child) as Hpc by (apply Hch; by left).
    destruct (predecessors_node G child Hwf) as (nb & Hnb & Hlk).
    { by apply (has_pred_node G parent child Hwf). }
    rewrite Hnb.
    set (st1 := mkBfs ({[child]} ∪ seen st)
                  (next_parents_children st ++ [(child, nb)])
                  (yielded st ++ [(parent, child)])).
    assert (child ≠ source) as Hcs.
    { intros ->. apply Hnot, (inv_source _ _ _ _ _ Hinv). }
    assert (bfs_inv G source pending base st1) as Hinv1.
    { destruct Hinv as [Hsrc Hnodes Hup Hfront Hadj Hnd Hy Hcount]. split; simpl.
      - set_solver.
      - apply union_subseteq; split; [|done].
        apply singleton_subseteq_l. by apply (has_pred_node G parent child Hwf).
      - intros x [->%elem_of_singleton|Hx]%elem_of_union; [|by apply Hup].
        eapply rtc_r; [by apply Hup|done].
      - intros x [->%elem_of_singleton|Hx]%elem_of_union.
        + right; right. rewrite fmap_app. apply elem_of_app. right. simpl. by left.
        + destruct (Hfront x Hx) as [Hc|[Hc|Hc]].
          * left. eapply closed_mono; [|done]. set_solver.
          * by right; left.
          * right; right. rewrite fmap_app. apply elem_of_app. by left.
      - intros v d. rewrite app_assoc. intros [Hvd|Hvd]%elem_of_app.
        + destruct (Hadj v d Hvd). split; [done|set_solver].
        + apply list_elem_of_singleton in Hvd. simplify_eq. split; [done|set_solver].
      - rewrite fmap_app. simpl. apply NoDup_app. split_and!; [done| |apply NoDup_singleton].
        intros x Hx ->%list_elem_of_singleton. apply Hy in Hx. tauto.
      - intros x. rewrite fmap_app, elem_of_app, Hy. simpl.
        rewrite list_elem_of_singleton. set_solver.
      - rewrite size_union by set_solver. rewrite size_singleton, length_app. simpl. lia. }
    destruct (IH st1 Hinv1) as (st' & Hrun & Hinv' & Hsub & Hall).
    { simpl. set_solver. }
    { intros c Hc. apply Hch. by right. }
    exists st'. split_and!; [done|done| |].
    + etrans; [|exact Hsub]. simpl. set_solver.
    + intros c [->|Hc]%elem_of_cons; [|by apply Hall]. apply Hsub. simpl. set_solver.
Qed.

(** Reading a layer: either the generator returns from inside it with every
    node seen, or the whole layer has been read. *)
Lemma scan_layer_inv base :
  ∀ pending st,
    bfs_inv G source pending base st →
    ∃ b st' pending',
      scan_layer G (len G) pending st = inr (b, st')
      ∧ bfs_inv G source pending' base st'
      ∧ (b = true → size (seen st') = len G)
      ∧ (b = false → pending' = []).
Proof.
  induction pending as [|[parent children] rest IH]; intros st Hinv; simpl.
  { exists false, st, []. by split_and!. }
  destruct (inv_adj _ _ _ _ _ Hinv parent children) as [Hlk Hp]; [by left|].
  destruct (scan_children_inv ((parent, children) :: rest) base parent children st Hinv Hp)
    as (st' & Hrun & Hinv' & Hsub & Hall).
  { intros c Hc. by exists children. }
  rewrite Hrun.
  assert (bfs_inv G source rest base st') as Hrest.
  { destruct Hinv' as [Hsrc Hnodes Hup Hfront Hadj Hnd Hy Hcount]. split; try done.
    - intros x Hx. destruct (Hfront x Hx) as [Hc|[Hc|Hc]]; [by left| |by right; right].
      simpl in Hc. apply elem_of_cons in Hc as [->|Hc]; [|by right; left].
      left. intros u (d & Hd & Hu). simplify_eq. by apply Hall.
    - intros v d Hvd. apply Hadj. by right. }
  destruct (decide (size (seen st') = len G)) as [Hfull|Hmore].
  - exists true, st', rest. by split_and!.
  - destruct (IH st' Hrest) as (b & st'' & pending' & Hrun' & ? & ? & ?).
    exists b, st'', pending'. by split_and!.
Qed.

(** Forward reachability is the closure of the predecessor relation. *)
Lemma reaches_has_pred m n : reaches G m n ↔ rtc (has_pred G) n m.
Proof.
  unfold reaches. split.
  - induction 1 as [|x y z Hxy _ IH]; [done|].
    eapply rtc_r; [done|]. by apply (wf_mirror _ Hwf).
  - induction 1 as [|x y z Hxy _ IH]; [done|].
    eapply rtc_r; [done|]. by apply (wf_mirror _ Hwf).
Qed.

(** A set that holds [source] and is closed under predecessors holds every
    node upstream of [source]. *)
Lemma closed_upstream (S : gset Z) :
  source ∈ S → (∀ x, x ∈ S → closed G S x) →
  ∀ x, rtc (has_pred G) source x → x ∈ S.
Proof.
  intros Hs Hc. apply rtc_ind_r; [done|].
  intros y z _ Hyz Hy. by apply (Hc y).
Qed.

Lemma upstream_node x : source ∈ node G → rtc (has_pred G) source x → x ∈ node G.
Proof.
  intros Hs. revert x. apply rtc_ind_r; [done|].
  intros y z _ Hyz _. by apply (has_pred_node G y z Hwf).
Qed.

(** What the edges yielded at the end are. *)
Definition bfs_post (es : list (Z * Z)) : Prop :=
  NoDup (es.*2) ∧ ∀ x, x ∈ es.*2 ↔ x ≠ source ∧ rtc (has_pred G) source x.

Lemma bfs_post_closed st base :
  bfs_inv G source [] base st → next_parents_children st = [] → bfs_post (yielded st).
Proof.
  intros [Hsrc Hnodes Hup Hfront Hadj Hnd Hy Hcount] Hnext. split; [done|].
  intros x. rewrite Hy. split; [naive_solver|]. intros [Hne Hx]. split; [|done].
  apply closed_upstream; [done| |done].
  intros y Hy'. destruct (Hfront y Hy') as [?|[Hc|Hc]]; [done|..].
  - by apply elem_of_nil in Hc.
  - rewrite Hnext in Hc. by apply elem_of_nil in Hc.
Qed.

Lemma bfs_post_full st pending base :
  bfs_inv G source pending base st → size (seen st) = len G → bfs_post (yielded st).
Proof.
  intros [Hsrc Hnodes Hup Hfront Hadj Hnd Hy Hcount] Hfull. split; [done|].
  intros x. rewrite Hy. split; [naive_solver|]. intros [Hne Hx]. split; [|done].
  assert (seen st = node G) as Heq.
  { apply set_subseteq_size_eq; [done|]. unfold len in Hfull. lia. }
  rewrite Heq. apply upstream_node; [|done]. by apply Hnodes.
Qed.

(** The loop: [depth_limit = len(G)] turns are enough. *)
Lemma bfs_loop_inv :
  ∀ fuel st base,
    bfs_inv G source [] base st →
    (next_parents_children st = [] ∨ len G + 1 ≤ fuel + size (seen st))%nat →
    ∃ es, bfs_loop G (len G) fuel st = inr es ∧ bfs_post es.
Proof.
  induction fuel as [|fuel IH]; intros st base Hinv Hfuel; cbn [bfs_loop].
  { exists (yielded st). split; [done|].
    destruct Hfuel as [Hnil|Hsz]; [by eapply bfs_post_closed|].
    pose proof (subseteq_size _ _ (inv_nodes _ _ _ _ _ Hinv)) as Hle.
    unfold len in Hsz. simpl in Hsz. lia. }
  destruct (next_parents_children st) as [|pc this] eqn:Hnext.
  { exists (yielded st). split; [done|]. by eapply bfs_post_closed. }
  set (st0 := mkBfs (seen st) [] (yielded st)).
  assert (bfs_inv G source (pc :: this) (size (seen st)) st0) as Hinv0.
  { destruct Hinv as [Hsrc Hnodes Hup Hfront Hadj Hnd Hy Hcount]. split; simpl; try done.
    - intros x Hx. destruct (Hfront x Hx) as [?|[Hc|Hc]]; [by left|..].
      + by apply elem_of_nil in Hc.
      + rewrite Hnext in Hc. by right; left.
    - intros v d Hvd. apply Hadj. rewrite Hnext. simpl. by rewrite app_nil_r in Hvd. }
  destruct (scan_layer_inv (size (seen st)) (pc :: this) st0 Hinv0)
    as (b & st' & pending' & Hrun & Hinv' & Htrue & Hfalse).
  rewrite Hrun. destruct b.
  - exists (yielded st'). split; [done|]. eapply bfs_post_full; [done|]. by apply Htrue.
  - rewrite (Hfalse eq_refl) in Hinv'.
    apply (IH st' (size (seen st))); [done|].
    destruct (next_parents_children st') as [|? ?] eqn:Hnext'; [by left|right].
    pose proof (inv_count _ _ _ _ _ Hinv') as Hc. rewrite Hnext' in Hc. simpl in Hc.
    destruct Hfuel as [?|Hsz]; [done|]. simpl in Hc. lia.
Qed.

(** [bfs_edges] from a node of the graph yields each node upstream of it
    once, and nothing else. *)
Lemma bfs_edges_reverse_node :
  source ∈ node G →
  ∃ es, bfs_edges_reverse G source = inr es ∧ bfs_post es.
Proof.
  intros Hs. unfold bfs_edges_reverse.
  destruct (predecessors_node G source Hwf Hs) as (nb & -> & Hlk).
  apply (bfs_loop_inv _ _ 0%nat).
  - split; cbn [seen next_parents_children yielded app fmap list_fmap length Nat.add].
    + set_solver.
    + by apply singleton_subseteq_l.
    + intros x ->%elem_of_singleton. done.
    + intros x ->%elem_of_singleton. right; right. by left.
    + intros v d Hvd%list_elem_of_singleton. simplify_eq. split; [done|set_solver].
    + apply NoDup_nil_2.
    + intros x. split; [by intros ?%elem_of_nil|]. set_solver.
    + by rewrite size_singleton.
  - right. cbn [seen]. rewrite size_singleton. lia.
Qed.

Lemma bfs_edges_reverse_missing :
  source ∉ node G → bfs_edges_reverse G source = inl (NetworkXError source).
Proof.
  intros Hs. unfold bfs_edges_reverse. by rewrite (predecessors_missing G source Hwf Hs).
Qed.

(** [ancestors] of a node of the graph: the nodes other than [source] from
    which [source] is reachable. *)
Lemma ancestors_node :
  source ∈ node G →
  ∃ anc, ancestors G source = inr anc
         ∧ ∀ m, m ∈ anc ↔ m ≠ source ∧ reaches G m source.
Proof.
  intros Hs. destruct (bfs_edges_reverse_node Hs) as (es & Hes & _ & Hpost).
  exists (list_to_set (es.*2)). unfold ancestors. rewrite Hes. split; [done|].
  intros m. rewrite elem_of_list_to_set, Hpost. by rewrite reaches_has_pred.
Qed.

Lemma ancestors_missing :
  source ∉ node G → ancestors G source = inl (NetworkXError source).
Proof. intros Hs. unfold ancestors. by rewrite (bfs_edges_reverse_missing Hs). Qed.

End traversal.

(** ** The graph of the flow table *)

Lemma G_wf (flowtable : flowtable_t) : DiGraph.wf (G flowtable).
Proof.
  unfold G. apply DiGraphFacts.add_edges_from_wf, DiGraphFacts.add_nodes_from_wf,
    DiGraphFacts.wf_empty.
Qed.

Lemma elem_of_edges (flowtable : flowtable_t) u v :
  (u, v) ∈ edges flowtable ↔ (u, v) ∈ flowtable ∧ v ≠ 0.
Proof. unfold edges. rewrite list_elem_of_filter. simpl. tauto. Qed.

Lemma G_has_edge (flowtable : flowtable_t) u v :
  DiGraph.has_edge (G flowtable) u v ↔ (u, v) ∈ flowtable ∧ v ≠ 0.
Proof.
  unfold G. rewrite DiGraphFacts.add_edges_from_has_edge
    by apply DiGraphFacts.add_nodes_from_wf, DiGraphFacts.wf_empty.
  rewrite DiGraphFacts.add_nodes_from_has_edge by apply DiGraphFacts.wf_empty.
  rewrite elem_of_edges. split; [|tauto].
  intros [(d & Hd & _)|?]; [|done]. simpl in Hd. by rewrite lookup_empty in Hd.
Qed.

Lemma G_node (flowtable : flowtable_t) x :
  x ∈ DiGraph.node (G flowtable)
  ↔ x ∈ flowtable.*1 ∨ (x ≠ 0 ∧ x ∈ flowtable.*2).
Proof.
  unfold G. rewrite DiGraphFacts.add_edges_from_node
    by apply DiGraphFacts.add_nodes_from_wf, DiGraphFacts.wf_empty.
  rewrite DiGraphFacts.add_nodes_from_node. simpl.
  rewrite !elem_of_union, !elem_of_list_to_set, !list_elem_of_fmap.
  split.
  - intros [[[[u v] [-> Huv]]|[[u v] [-> Huv]]]|[[[u v] [-> Huv]]|Hx]]; simpl.
    + apply elem_of_edges in Huv as [? ?]. left. by exists (u, v).
    + apply elem_of_edges in Huv as [? ?]. right. split; [done|]. by exists (u, v).
    + left. by exists (u, v).
    + by apply not_elem_of_empty in Hx.
  - intros [[[u v] [-> Huv]]|[Hx [[u v] [-> Huv]]]]; simpl in *.
    + right; left. by exists (u, v).
    + left; right. exists (u, v). split; [done|]. by apply elem_of_edges.
Qed.

(** ** The claims about the traversal *)

(** C1. For a networkx digraph [G] and any id [source], [ancestors] raises
    (the [NetworkXError] naming [source]) exactly when [source] is not a
    node of [G]; when it is a node, a set is returned and [source] is not in
    it, self-loops or not. *)
Theorem ancestors_raises_iff_unknown (G : DiGraph.t) (source : Z) :
  DiGraph.wf G →
  ((∃ e, ancestors G source = inl e) ↔ source ∉ DiGraph.node G)
  ∧ (source ∉ DiGraph.node G → ancestors G source = inl (NetworkXError source))
  ∧ (source ∈ DiGraph.node G → ∃ anc, ancestors G source = inr anc ∧ source ∉ anc).
Proof.
  intros Hwf.
  assert (source ∈ DiGraph.node G → ∃ anc, ancestors G source = inr anc ∧ source ∉ anc) as Hin.
  { intros Hs. destruct (ancestors_node G Hwf source Hs) as (anc & Hanc & Hmem).
    exists anc. split; [done|]. rewrite Hmem. tauto. }
  split_and!; [|by apply ancestors_missing|done].
  split.
  - intros [e He] Hs. destruct (Hin Hs) as (anc & Hanc & _). congruence.
  - intros Hs. exists (NetworkXError source). by apply ancestors_missing.
Qed.

(** A self-loop on the source, and an id that is not in the graph. *)
Lemma ancestors_raises_iff_unknown_witness :
  ((∃ e, ancestors (G [(1, 1); (2, 1)]) 1 = inl e) ↔ 1 ∉ DiGraph.node (G [(1, 1); (2, 1)]))
  ∧ (1 ∉ DiGraph.node (G [(1, 1); (2, 1)])
     → ancestors (G [(1, 1); (2, 1)]) 1 = inl (NetworkXError 1))
  ∧ (1 ∈ DiGraph.node (G [(1, 1); (2, 1)])
     → ∃ anc, ancestors (G [(1, 1); (2, 1)]) 1 = inr anc ∧ 1 ∉ anc).
Proof. exact (ancestors_raises_iff_unknown (G [(1, 1); (2, 1)]) 1 (G_wf _)). Defined.






(** ** The claim about graph construction *)

(** C4, as the script has it.  The rows with [tocomid = 0] are filtered out
    before [add_edges_from]; the edges of [G] are exactly the other rows, as
    they are; no edge of [G] has 0 as its downstream end; and 0 is a node of
    [G] only if [add_nodes_from] put it there, that is when 0 occurs in the
    [comid] column (it is then the upstream end of an edge whenever its row
    has a non-zero [tocomid]). *)
Theorem G_drops_terminal_flows (flowtable : flowtable_t) :
  (∀ u v, (u, v) ∈ edges flowtable ↔ (u, v) ∈ flowtable ∧ v ≠ 0)
  ∧ (∀ u v, DiGraph.has_edge (G flowtable) u v ↔ (u, v) ∈ flowtable ∧ v ≠ 0)
  ∧ (∀ u v, DiGraph.has_pred (G flowtable) v u ↔ (u, v) ∈ flowtable ∧ v ≠ 0)
  ∧ (∀ u, ¬ DiGraph.has_edge (G flowtable) u 0)
  ∧ (0 ∈ DiGraph.node (G flowtable)
     ↔ 0 ∈ DiGraph.node (DiGraph.add_nodes_from DiGraph.empty (flowtable.*1)))
  ∧ (0 ∈ DiGraph.node (G flowtable) ↔ 0 ∈ flowtable.*1)
  ∧ (∀ v, DiGraph.has_edge (G flowtable) 0 v ↔ (0, v) ∈ flowtable ∧ v ≠ 0).
Proof.
  split_and!.
  - apply elem_of_edges.
  - apply G_has_edge.
  - intros u v. rewrite <- (DiGraph.wf_mirror _ (G_wf flowtable)). apply G_has_edge.
  - intros u Hu. apply G_has_edge in Hu. tauto.
  - rewrite G_node, DiGraphFacts.add_nodes_from_node. simpl.
    rewrite elem_of_union, elem_of_list_to_set. set_solver.
  - rewrite G_node. tauto.
  - intros v. apply G_has_edge.
Qed.

(** C4 as stated fails when 0 is itself a [comid] with a non-zero
    [tocomid]: edge insertion then makes 0 the upstream end of an edge. *)
Lemma G_sentinel_as_upstream_end :
  edges [(0, 5)] = [(0, 5)]
  ∧ DiGraph.has_edge (G [(0, 5)]) 0 5
  ∧ DiGraph.has_pred (G [(0, 5)]) 5 0
  ∧ 0 ∈ DiGraph.node (G [(0, 5)]).
Proof.
  split_and!.
  - reflexivity.
  - apply G_has_edge. split; [set_solver|lia].
  - apply (DiGraph.wf_mirror _ (G_wf _)), G_has_edge. split; [set_solver|lia].
  - apply G_node. left. simpl. set_solver.
Qed.

(** ** The claims about [get_watershed_boundaries] *)

Section watershed.
Context `{Geos}.

Lemma reaches_last_edge (G : DiGraph.t) m n :
  reaches G m n → m ≠ n → ∃ u, DiGraph.has_edge G u n.
Proof.
  intros Hr Hne. apply rtc_inv_r in Hr as [->|(u & _ & Hu)]; [done|]. by exists u.
Qed.

(** C8. A node of the graph that no edge points at has no ancestors, and
    its watershed is the union of the rows stored for that node alone. *)
Theorem ancestors_no_predecessors (G : DiGraph.t) (n : Z) (catchments : GeoDataFrame Z) :
  DiGraph.wf G → n ∈ DiGraph.node G → (∀ u, ¬ DiGraph.has_edge G u n) →
  ancestors G n = inr ∅
  ∧ get_watershed_boundaries n G catchments
    = inr (union_all (geometry (filter (λ row, row.1 = n) catchments)),
           mean [bool_decide (n ∈ catchments.*1)]).
Proof.
  intros Hwf Hn Hnone.
  destruct (ancestors_node G Hwf n Hn) as (anc & Hanc & Hmem).
  assert (anc = ∅) as ->.
  { apply set_eq. intros m. rewrite Hmem. split; [|by intros ?%not_elem_of_empty].
    intros [Hne Hr]. destruct (reaches_last_edge G m n Hr Hne) as [u Hu].
    by destruct (Hnone u). }
  split; [done|]. unfold get_watershed_boundaries. rewrite Hanc, elements_empty.
  unfold watershed_of. simpl. do 2 f_equal. unfold geometry. do 2 f_equal.
  apply list_filter_iff. intros [c g]. simpl. set_solver.
Qed.

End watershed.

(** ** Counting over the upstream set *)

Lemma length_filter_isin (series values : list Z) :
  length (filter (λ b, b = true) (isin series values))
  = length (filter (λ x, x ∈ values) series).
Proof.
  unfold isin. induction series as [|x l IH]; [done|].
  rewrite fmap_cons, !filter_cons. destruct (decide (x ∈ values)) as [Hx|Hx].
  - rewrite decide_True by by apply bool_decide_eq_true. simpl. by rewrite IH.
  - rewrite decide_False; [done|]. by rewrite bool_decide_eq_true.
Qed.

Lemma size_filter_list_to_set (P : Z → Prop) `{!∀ x, Decision (P x)} (l : list Z) :
  NoDup l → size (filter P (list_to_set l : gset Z)) = length (filter P l).
Proof.
  intros Hnd.
  assert (filter P (list_to_set l : gset Z) = list_to_set (filter P l)) as ->.
  { apply set_eq. intros x.
    rewrite elem_of_filter, !elem_of_list_to_set, list_elem_of_filter. tauto. }
  apply size_list_to_set. by apply NoDup_filter.
Qed.

Lemma upstream_list (anc : gset Z) (source : Z) :
  upstream anc source = list_to_set (source :: elements anc).
Proof.
  apply set_eq. intros x. unfold upstream.
  rewrite list_to_set_cons, !elem_of_union, elem_of_list_to_set, elem_of_elements. tauto.
Qed.

Lemma upstream_NoDup (anc : gset Z) (source : Z) :
  source ∉ anc → NoDup (source :: elements anc).
Proof.
  intros Hs. apply NoDup_cons. split; [by rewrite elem_of_elements|apply NoDup_elements].
Qed.

Lemma size_upstream (anc : gset Z) (source : Z) :
  source ∉ anc → size (upstream anc source) = S (size anc).
Proof.
  intros Hs. unfold upstream. rewrite size_union by set_solver.
  rewrite size_singleton. lia.
Qed.

Lemma matched_all (ids : gset Z) (catchments : GeoDataFrame Z) :
  size (matched ids catchments) = size ids ↔ ∀ x, x ∈ ids → x ∈ catchments.*1.
Proof.
  unfold matched. split.
  - intros Hsz x Hx.
    assert (filter (λ x, x ∈ catchments.*1) ids = ids) as Heq.
    { apply set_subseteq_size_eq; [|lia]. intros y [_ ?]%elem_of_filter. done. }
    rewrite <- Heq in Hx. by apply elem_of_filter in Hx as [? _].
  - intros Hall. f_equal. apply set_eq. intros x. rewrite elem_of_filter. naive_solver.
Qed.

Lemma matched_le (ids : gset Z) (catchments : GeoDataFrame Z) :
  (size (matched ids catchments) ≤ size ids)%nat.
Proof. apply subseteq_size. intros y [_ ?]%elem_of_filter. done. Qed.

Lemma matched_none (ids : gset Z) (catchments : GeoDataFrame Z) :
  (∀ x, x ∈ ids → x ∉ catchments.*1) → matched ids catchments = ∅.
Proof.
  intros Hnone. apply set_eq. intros x. unfold matched. rewrite elem_of_filter.
  split; [|by intros ?%not_elem_of_empty]. intros [Hx Hin]. by destruct (Hnone x Hin).
Qed.

Lemma Zpos_of_nat (q : nat) : (1 ≤ q)%nat → Z.pos (Pos.of_nat q) = Z.of_nat q.
Proof. intros Hq. rewrite <- positive_nat_Z, Nat2Pos.id; [done|lia]. Qed.

Lemma mean_nonempty (bs : list bool) :
  bs ≠ [] →
  mean bs = Some (Z.of_nat (length (filter (λ b, b = true) bs)) # Pos.of_nat (length bs))%Q.
Proof. by destruct bs. Qed.

Lemma mean_isin_cons (x : Z) (l values : list Z) :
  mean (isin (x :: l) values)
  = Some (Z.of_nat (length (filter (λ y, y ∈ values) (x :: l)))
          # Pos.of_nat (length (x :: l)))%Q.
Proof.
  rewrite mean_nonempty by (unfold isin; by rewrite fmap_cons).
  rewrite length_filter_isin. unfold isin. by rewrite length_fmap.
Qed.

Section coverage.
Context `{Geos}.

(** The ratio computed by line 23, in terms of the upstream set. *)
Lemma watershed_of_ratio (source : Z) (anc : gset Z) (catchments : GeoDataFrame Z) :
  source ∉ anc →
  (watershed_of source (elements anc) catchments).2
  = Some (Z.of_nat (size (matched (upstream anc source) catchments))
          # Pos.of_nat (size (upstream anc source)))%Q.
Proof.
  intros Hs. unfold watershed_of. cbn [snd app]. rewrite mean_isin_cons.
  unfold matched. rewrite upstream_list.
  rewrite size_filter_list_to_set by by apply upstream_NoDup.
  by rewrite size_list_to_set by by apply upstream_NoDup.
Qed.

(** C3. For a node [source] of the graph and any geometry store, the ratio
    returned is matched_count / queried_count over
    [upstream = ancestors(source) ∪ {source}]: queried_count is at least 1,
    the ratio lies in [0,1], and it is 1 exactly when every id of
    [upstream] has a row in the store. *)
Theorem match_ratio_is_coverage (G : DiGraph.t) (source : Z) (catchments : GeoDataFrame Z) :
  DiGraph.wf G → source ∈ DiGraph.node G →
  ∃ anc polygon ratio,
    ancestors G source = inr anc
    ∧ get_watershed_boundaries source G catchments = inr (polygon, Some ratio)
    ∧ let queried_count := size (upstream anc source) in
      let matched_count := size (matched (upstream anc source) catchments) in
      (1 ≤ queried_count)%nat
      ∧ ratio = (Z.of_nat matched_count # Pos.of_nat queried_count)%Q
      ∧ (0 <= ratio)%Q ∧ (ratio <= 1)%Q
      ∧ ((ratio == 1)%Q ↔ ∀ x, x ∈ upstream anc source → x ∈ catchments.*1).
Proof.
  intros Hwf Hs.
  destruct (ancestors_node G Hwf source Hs) as (anc & Hanc & Hmem).
  assert (source ∉ anc) as Hnot by (rewrite Hmem; tauto).
  pose proof (watershed_of_ratio source anc catchments Hnot) as Hratio.
  destruct (watershed_of source (elements anc) catchments) as [polygon r] eqn:Hw.
  simpl in Hratio. subst r.
  eexists anc, polygon, _. split; [done|]. split.
  { unfold get_watershed_boundaries. rewrite Hanc, Hw. reflexivity. }
  pose proof (matched_le (upstream anc source) catchments) as Hle.
  pose proof (size_upstream anc source Hnot) as Hsz.
  assert (1 ≤ size (upstream anc source))%nat as Hq by lia.
  cbv zeta. split_and!; [done|done|..].
  - unfold Qle. simpl. lia.
  - unfold Qle. simpl. rewrite Zpos_of_nat by done. lia.
  - rewrite <- matched_all. unfold Qeq. simpl. rewrite Zpos_of_nat by done. lia.
Qed.

(** C7. For a node [source] of the graph, when no id of [upstream] has a
    row in the store, the call returns (it does not raise) the empty
    geometry and a ratio equal to 0. *)
Theorem no_geometry_matched (G : DiGraph.t) (source : Z) (catchments : GeoDataFrame Z) :
  DiGraph.wf G → source ∈ DiGraph.node G →
  ∃ anc,
    ancestors G source = inr anc
    ∧ ((∀ x, x ∈ upstream anc source → x ∉ catchments.*1) →
       ∃ ratio,
         get_watershed_boundaries source G catchments
         = inr (empty_geometry, Some ratio)
         ∧ ratio = (0 # Pos.of_nat (size (upstream anc source)))%Q
         ∧ (ratio == 0)%Q).
Proof.
  intros Hwf Hs.
  destruct (ancestors_node G Hwf source Hs) as (anc & Hanc & Hmem).
  assert (source ∉ anc) as Hnot by (rewrite Hmem; tauto).
  exists anc. split; [done|]. intros Hnone.
  pose proof (watershed_of_ratio source anc catchments Hnot) as Hratio.
  rewrite (matched_none _ _ Hnone), size_empty in Hratio.
  eexists. split_and!; [|reflexivity|done].
  unfold get_watershed_boundaries. rewrite Hanc. f_equal.
  rewrite (surjective_pairing (watershed_of source (elements anc) catchments)).
  rewrite Hratio. f_equal. unfold watershed_of. cbn [fst].
  assert (filter (λ row : Z * Geometry, row.1 ∈ [source] ++ elements anc) catchments = [])
    as ->; [|done].
  clear Hratio. unfold GeoDataFrame in *.
  induction catchments as [|[c g] rest IH]; [done|].
  rewrite filter_cons. rewrite decide_False.
  - apply IH. intros x Hx Hin. apply (Hnone x Hx). rewrite fmap_cons. by right.
  - simpl. intros Hc. apply (Hnone c).
    + rewrite upstream_list, elem_of_list_to_set. exact Hc.
    + rewrite fmap_cons. by left.
Qed.


End coverage.

(** ** The worked example *)

Example sample_delineate :
  @get_watershed_boundaries geos_unevaluated 1 (G sample_flowtable) sample_catchments
  = inr (GeometryCollection [unit_square 0 0; unit_square 1 0; unit_square 2 0],
         Some (3 # 4)%Q).
Proof. vm_compute. reflexivity. Qed.

Lemma sample_node (n : Z) :
  n ∈ [1; 2; 3; 4] → n ∈ DiGraph.node (G sample_flowtable).
Proof.
  intros Hn. apply G_node. left. unfold sample_flowtable. simpl. exact Hn.
Qed.

(** Segment 1 of the worked example: three of the four upstream ids have a
    catchment. *)
Lemma match_ratio_is_coverage_witness :
  ∃ anc polygon ratio,
    ancestors (G sample_flowtable) 1 = inr anc
    ∧ @get_watershed_boundaries geos_unevaluated 1 (G sample_flowtable) sample_catchments
      = inr (polygon, Some ratio)
    ∧ (1 ≤ size (upstream anc 1))%nat
    ∧ ratio = (Z.of_nat (size (matched (upstream anc 1) sample_catchments))
               # Pos.of_nat (size (upstream anc 1)))%Q
    ∧ (0 <= ratio)%Q ∧ (ratio <= 1)%Q
    ∧ ((ratio == 1)%Q ↔ ∀ x, x ∈ upstream anc 1 → x ∈ sample_catchments.*1).
Proof.
  apply (@match_ratio_is_coverage geos_unevaluated (G sample_flowtable) 1
           sample_catchments (G_wf _)).
  apply sample_node. set_solver.
Defined.

(** Segment 4 of the worked example has no catchment and no ancestors. *)
Lemma no_geometry_matched_witness :
  ∃ ratio,
    @get_watershed_boundaries geos_unevaluated 4 (G sample_flowtable) sample_catchments
    = inr (empty_geometry, Some ratio)
    ∧ ratio = (0 # Pos.of_nat (size (upstream ∅ 4)))%Q
    ∧ (ratio == 0)%Q.
Proof.
  destruct (@no_geometry_matched geos_unevaluated (G sample_flowtable) 4
              sample_catchments (G_wf _)) as (anc & Hanc & Hres).
  { apply sample_node. set_solver. }
  assert (ancestors (G sample_flowtable) 4 = inr ∅) as Hempty by (vm_compute; reflexivity).
  rewrite Hempty in Hanc. injection Hanc as <-.
  apply Hres. intros x Hx. unfold upstream in Hx.
  assert (x = 4) as -> by set_solver.
  unfold sample_catchments. simpl. set_solver.
Defined.

(** Segment 3 of the worked example is a headwater. *)
Lemma ancestors_no_predecessors_witness :
  ancestors (G sample_flowtable) 3 = inr ∅
  ∧ @get_watershed_boundaries geos_unevaluated 3 (G sample_flowtable) sample_catchments
    = inr (@union_all geos_unevaluated
             (geometry (filter (λ row, row.1 = 3) sample_catchments)),
           mean [bool_decide (3 ∈ sample_catchments.*1)]).
Proof.
  apply (@ancestors_no_predecessors geos_unevaluated (G sample_flowtable) 3
           sample_catchments (G_wf _)).
  - apply sample_node. set_solver.
  - intros u Hu. apply G_has_edge in Hu as [Hu _]. unfold sample_flowtable in Hu.
    set_solver.
Defined.


(** ** The claim about the loop over the gages *)

Section gages.
Context `{Geos}.

(** On a node of the graph the call returns, with a ratio that is a
    number. *)
Lemma get_watershed_boundaries_node (G : DiGraph.t) (source : Z)
    (catchments : GeoDataFrame Z) :
  DiGraph.wf G → source ∈ DiGraph.node G →
  ∃ polygon ratio,
    get_watershed_boundaries source G catchments = inr (polygon, Some ratio).
Proof.
  intros Hwf Hs. destruct (ancestors_node G Hwf source Hs) as (anc & Hanc & _).
  unfold get_watershed_boundaries, watershed_of. rewrite Hanc. cbn [app].
  rewrite mean_isin_cons. eauto.
Qed.



End gages.



(** ** The claims about [write_geodatabase] *)

Lemma elem_of_unique (l : list string) (x : string) : x ∈ unique l ↔ x ∈ l.
Proof.
  induction l as [|y l IH]; [done|]. simpl.
  rewrite !elem_of_cons, list_elem_of_filter, IH.
  destruct (decide (x = y)); naive_solver.
Qed.

Lemma NoDup_unique (l : list string) : NoDup (unique l).
Proof.
  induction l as [|y l IH]; simpl; [apply NoDup_nil_2|].
  apply NoDup_cons. split; [|by apply NoDup_filter].
  rewrite list_elem_of_filter. naive_solver.
Qed.

Lemma insert_sorted_Permutation (x : string) (l : list string) :
  insert_sorted x l ≡ₚ x :: l.
Proof.
  induction l as [|y l IH]; simpl; [done|].
  destruct (String.leb x y); [done|]. rewrite IH. apply Permutation_swap.
Qed.

Lemma sort_Permutation (l : list string) : sort l ≡ₚ l.
Proof.
  unfold sort. induction l as [|y l IH]; simpl; [done|].
  by rewrite insert_sorted_Permutation, IH.
Qed.

Lemma elem_of_geom_types (gs : list Geometry) (t : string) :
  t ∈ sort (unique (geom_type <$> gs)) ↔ ∃ g, g ∈ gs ∧ geom_type g = t.
Proof.
  rewrite sort_Permutation, elem_of_unique, list_elem_of_fmap. naive_solver.
Qed.

(** A frame whose types are exactly Polygon and MultiPolygon is seen as
    ['MultiPolygon', 'Polygon'] after the sort. *)
Lemma geom_types_exactly (gs : list Geometry) :
  (∀ t, (∃ g, g ∈ gs ∧ geom_type g = t) ↔ t = "Polygon" ∨ t = "MultiPolygon") →
  sort (unique (geom_type <$> gs)) = ["MultiPolygon"; "Polygon"].
Proof.
  intros Hex.
  assert (unique (geom_type <$> gs) ≡ₚ ["MultiPolygon"; "Polygon"]) as Hperm.
  { apply NoDup_Permutation.
    - apply NoDup_unique.
    - apply NoDup_cons. split; [|apply NoDup_singleton].
      by intros ?%list_elem_of_singleton.
    - intros t. rewrite elem_of_unique, list_elem_of_fmap.
      rewrite elem_of_cons, list_elem_of_singleton. specialize (Hex t). naive_solver. }
  symmetry in Hperm. apply Permutation_length_2_inv in Hperm as [->| ->]; reflexivity.
Qed.

Lemma set_geometry_geometry {A} (gdf : GeoDataFrame A) (values : list Geometry) :
  length values = length gdf →
  geometry (set_geometry gdf values) = values
  ∧ (set_geometry gdf values).*1 = gdf.*1
  ∧ length (set_geometry gdf values) = length gdf.
Proof.
  intros Hlen. unfold geometry, set_geometry, GeoDataFrame in *. split_and!.
  - apply snd_zip. rewrite length_fmap. lia.
  - apply fst_zip. rewrite length_fmap. lia.
  - rewrite length_zip, length_fmap. lia.
Qed.

Lemma geom_type_upcast (g g' : Geometry) :
  upcast g' = g → geom_type g = "Polygon" → False.
Proof.
  unfold upcast. case_decide as Hg'; intros <-; [done|]. simpl. done.
Qed.

Section writer.
Context `{Geos} {A : Type}.
Implicit Types (W : world A) (frame : GeoDataFrame A).

Lemma any_polygon_types (gs : list Geometry) :
  existsb (λ x, bool_decide (x ∈ sort (unique (geom_type <$> gs))))
    ["Polygon"; "MultiPolygon"] = true
  ↔ ∃ g, g ∈ gs ∧ (geom_type g = "Polygon" ∨ geom_type g = "MultiPolygon").
Proof.
  cbn [existsb]. rewrite orb_false_r, orb_true_iff, !bool_decide_eq_true.
  rewrite !elem_of_geom_types. naive_solver.
Qed.

(** The branch of line 43. *)
Lemma write_geodatabase_centroid W gdf frame filepath layer_name :
  heap W !! gdf = Some frame →
  (∃ g, g ∈ geometry frame ∧ (geom_type g = "Polygon" ∨ geom_type g = "MultiPolygon")) →
  write_geodatabase W gdf filepath layer_name true
  = mkWorld (<[gdf := set_geometry frame (centroid <$> geometry frame)]> (heap W))
            (stdout W)
            (files W ++ [mkToFile (set_geometry frame (centroid <$> geometry frame))
                           filepath layer_name "OpenFileGDB"]).
Proof.
  intros Hframe Hany%any_polygon_types. unfold write_geodatabase.
  rewrite Hframe. cbv zeta. rewrite Hany. cbn [heap stdout files].
  by rewrite lookup_insert_eq.
Qed.

(** [polygons_as_points] with no polygon in the frame: nothing is touched. *)
Lemma write_geodatabase_points_as_is W gdf frame filepath layer_name :
  heap W !! gdf = Some frame →
  ¬ (∃ g, g ∈ geometry frame ∧ (geom_type g = "Polygon" ∨ geom_type g = "MultiPolygon")) →
  write_geodatabase W gdf filepath layer_name true
  = mkWorld (heap W) (stdout W)
            (files W ++ [mkToFile frame filepath layer_name "OpenFileGDB"]).
Proof.
  intros Hframe Hnone. unfold write_geodatabase. rewrite Hframe. cbv zeta.
  destruct (existsb _ _) eqn:Hany; [by apply any_polygon_types in Hany|].
  by rewrite Hframe.
Qed.

(** The branch of line 49. *)
Lemma write_geodatabase_upcast W gdf frame filepath layer_name :
  heap W !! gdf = Some frame →
  sort (unique (geom_type <$> geometry frame)) = ["MultiPolygon"; "Polygon"] →
  write_geodatabase W gdf filepath layer_name false
  = mkWorld (<[gdf := set_geometry frame (upcast <$> geometry frame)]> (heap W))
            (stdout W ++ ["warning: multiple geometry types in geodataframe"]
                      ++ ["upcasting polygons to multipolygons to achieve consistency"])
            (files W ++ [mkToFile (set_geometry frame (upcast <$> geometry frame))
                           filepath layer_name "OpenFileGDB"]).
Proof.
  intros Hframe Htypes. unfold write_geodatabase. rewrite Hframe. cbv zeta.
  rewrite Htypes. rewrite decide_True by (simpl; lia). rewrite decide_True by done.
  cbn [heap stdout files]. rewrite lookup_insert_eq. by rewrite <- app_assoc.
Qed.

(** Any other frame, without [polygons_as_points]: the frame goes to the
    writer as it is, after a warning if it has more than one type. *)
Lemma write_geodatabase_as_is W gdf frame filepath layer_name :
  heap W !! gdf = Some frame →
  sort (unique (geom_type <$> geometry frame)) ≠ ["MultiPolygon"; "Polygon"] →
  write_geodatabase W gdf filepath layer_name false
  = mkWorld (heap W)
      (stdout W ++
         if decide (1 < length (sort (unique (geom_type <$> geometry frame))))%nat
         then ["warning: multiple geometry types in geodataframe"] else [])
      (files W ++ [mkToFile frame filepath layer_name "OpenFileGDB"]).
Proof.
  intros Hframe Htypes. unfold write_geodatabase. rewrite Hframe. cbv zeta.
  case_decide.
  - rewrite decide_False by done. cbn [heap stdout files]. by rewrite Hframe.
  - rewrite Hframe. by rewrite app_nil_r.
Qed.

End writer.

Section writer_claims.
Context `{Geos} {A : Type}.
Implicit Types (W : world A) (frame : GeoDataFrame A).

Lemma geometry_length frame : length (geometry frame) = length frame.
Proof. unfold geometry. by rewrite length_fmap. Qed.

(** C10. [write_geodatabase] changes the frame the caller passed: with
    [polygons_as_points] and some Polygon or MultiPolygon in it, the
    caller's geometry column becomes the centroids; without
    [polygons_as_points], when the types are exactly Polygon and
    MultiPolygon, every Polygon of the caller's column becomes a
    MultiPolygon of that one polygon.  In both cases the other columns stay
    and the frame is not what it was. *)
Theorem write_geodatabase_mutates_frame W (gdf : positive) frame
    (filepath layer_name : string) :
  heap W !! gdf = Some frame →
  ((∃ g, g ∈ geometry frame ∧ (geom_type g = "Polygon" ∨ geom_type g = "MultiPolygon")) →
   ∃ frame',
     heap (write_geodatabase W gdf filepath layer_name true) !! gdf = Some frame'
     ∧ geometry frame' = centroid <$> geometry frame
     ∧ frame'.*1 = frame.*1
     ∧ frame' ≠ frame)
  ∧ ((∀ t, (∃ g, g ∈ geometry frame ∧ geom_type g = t)
           ↔ t = "Polygon" ∨ t = "MultiPolygon") →
     ∃ frame',
       heap (write_geodatabase W gdf filepath layer_name false) !! gdf = Some frame'
       ∧ geometry frame' = upcast <$> geometry frame
       ∧ (∀ i g, geometry frame !! i = Some g → geom_type g = "Polygon" →
                 geometry frame' !! i = Some (MultiPolygon [g]))
       ∧ frame'.*1 = frame.*1
       ∧ frame' ≠ frame).
Proof.
  intros Hframe. split.
  - intros Hany.
    destruct (set_geometry_geometry frame (centroid <$> geometry frame))
      as (Hgeo & Hcols & _).
    { by rewrite length_fmap, geometry_length. }
    eexists. rewrite (write_geodatabase_centroid W gdf frame) by done.
    cbn [heap]. rewrite lookup_insert_eq. split_and!; [done|done|done|].
    intros Heq. rewrite Heq in Hgeo. destruct Hany as (g & Hg & Hty).
    rewrite Hgeo in Hg. apply list_elem_of_fmap in Hg as (g' & -> & _).
    simpl in Hty. by destruct Hty.
  - intros Hex.
    destruct (set_geometry_geometry frame (upcast <$> geometry frame))
      as (Hgeo & Hcols & _).
    { by rewrite length_fmap, geometry_length. }
    eexists. rewrite (write_geodatabase_upcast W gdf frame)
      by (done || by apply geom_types_exactly).
    cbn [heap]. rewrite lookup_insert_eq. split_and!; [done|done| |done|].
    + intros i g Hi Hty. rewrite Hgeo, list_lookup_fmap, Hi. simpl.
      unfold upcast. by rewrite decide_True.
    + intros Heq. rewrite Heq in Hgeo.
      destruct (proj2 (Hex "Polygon")) as (g & Hg & Hty); [by left|].
      rewrite Hgeo in Hg. apply list_elem_of_fmap in Hg as (g' & Hup & _).
      by apply (geom_type_upcast g g').
Qed.


End writer_claims.

(** The mixed frame of the sample world. *)
Lemma write_geodatabase_mutates_frame_witness :
  ((∃ g, g ∈ geometry sample_watersheds
         ∧ (geom_type g = "Polygon" ∨ geom_type g = "MultiPolygon")) →
   ∃ frame',
     heap (@write_geodatabase geos_unevaluated _ sample_world 2 "out.gdb" "watersheds" true)
       !! 2%positive = Some frame'
     ∧ geometry frame' = @centroid geos_unevaluated <$> geometry sample_watersheds
     ∧ frame'.*1 = sample_watersheds.*1
     ∧ frame' ≠ sample_watersheds)
  ∧ ((∀ t, (∃ g, g ∈ geometry sample_watersheds ∧ geom_type g = t)
           ↔ t = "Polygon" ∨ t = "MultiPolygon") →
     ∃ frame',
       heap (@write_geodatabase geos_unevaluated _ sample_world 2 "out.gdb" "watersheds" false)
         !! 2%positive = Some frame'
       ∧ geometry frame' = upcast <$> geometry sample_watersheds
       ∧ (∀ i g, geometry sample_watersheds !! i = Some g → geom_type g = "Polygon" →
                 geometry frame' !! i = Some (MultiPolygon [g]))
       ∧ frame'.*1 = sample_watersheds.*1
       ∧ frame' ≠ sample_watersheds).
Proof.
  apply (@write_geodatabase_mutates_frame geos_unevaluated station sample_world 2
           sample_watersheds "out.gdb" "watersheds").
  reflexivity.
Defined.

Example sample_upcast :
  heap (@write_geodatabase geos_unevaluated _ sample_world 2 "out.gdb" "watersheds" false)
    !! 2%positive
  = Some [(mkStation "01234567" 1 (Some (3 # 4)%Q), MultiPolygon [unit_square 0 0]);
          (mkStation "02345678" 2 (Some 1%Q),
           MultiPolygon [unit_square 1 0; unit_square 3 0])].
Proof. vm_compute. reflexivity. Qed.



(** * Further properties of the script *)

(** ** The flow network *)

Lemma ancestors_inr_spec (G : DiGraph.t) (source : Z) (anc : gset Z) :
  DiGraph.wf G → ancestors G source = inr anc →
  source ∈ DiGraph.node G ∧ ∀ m, m ∈ anc ↔ m ≠ source ∧ reaches G m source.
Proof.
  intros Hwf Hanc. destruct (decide (source ∈ DiGraph.node G)) as [Hs|Hs].
  - split; [done|]. destruct (ancestors_node G Hwf source Hs) as (anc' & Hanc' & Hmem).
    rewrite Hanc in Hanc'. by injection Hanc' as <-.
  - rewrite (ancestors_missing G Hwf source Hs) in Hanc. done.
Qed.

Lemma reaches_flows_to (flowtable : flowtable_t) m n :
  reaches (G flowtable) m n ↔ rtc (flows_to flowtable) m n.
Proof.
  unfold reaches. split; apply rtc_subrel; intros a b Hab; by apply G_has_edge.
Qed.

Lemma reaches_first_edge (G : DiGraph.t) m n :
  reaches G m n → m ≠ n → ∃ v, DiGraph.has_edge G m v.
Proof. intros Hr Hne. inversion Hr; simplify_eq; eauto. Qed.

(** X1. The graph built from a flow table satisfies the digraph invariant;
    its nodes are the ids of the [comid] column together with the non-zero
    ids of the [tocomid] column of non-terminal rows (so a segment that only
    appears downstream is added, and a segment with only a terminal row is
    still a node); both ends of every edge are nodes. *)
Theorem G_nodes_and_edges (flowtable : flowtable_t) :
  DiGraph.wf (G flowtable)
  ∧ (∀ x, x ∈ DiGraph.node (G flowtable)
          ↔ x ∈ flowtable.*1 ∨ (x ≠ 0 ∧ x ∈ flowtable.*2))
  ∧ (∀ u v, DiGraph.has_edge (G flowtable) u v
            → u ∈ DiGraph.node (G flowtable) ∧ v ∈ DiGraph.node (G flowtable))
  ∧ (∀ u v, (u, v) ∈ flowtable → u ∈ DiGraph.node (G flowtable)).
Proof.
  split_and!.
  - apply G_wf.
  - apply G_node.
  - intros u v. apply DiGraphFacts.has_edge_node, G_wf.
  - intros u v Huv. apply G_node. left. apply list_elem_of_fmap. by exists (u, v).
Qed.

(** X2. For a gage on a segment of the network, the upstream set returned
    is exactly the set of the other segments from which a chain of
    non-terminal rows of the flow table leads to that segment. *)
Theorem ancestors_follow_flowtable (flowtable : flowtable_t) (source : Z) :
  source ∈ DiGraph.node (G flowtable) →
  ∃ anc, ancestors (G flowtable) source = inr anc
         ∧ ∀ m, m ∈ anc ↔ m ≠ source ∧ rtc (flows_to flowtable) m source.
Proof.
  intros Hs. destruct (ancestors_node _ (G_wf flowtable) source Hs) as (anc & Hanc & Hmem).
  exists anc. split; [done|]. intros m. by rewrite Hmem, reaches_flows_to.
Qed.

Lemma ancestors_follow_flowtable_witness :
  ∃ anc, ancestors (G sample_flowtable) 1 = inr anc
         ∧ ∀ m, m ∈ anc ↔ m ≠ 1 ∧ rtc (flows_to sample_flowtable) m 1.
Proof.
  apply (ancestors_follow_flowtable sample_flowtable 1).
  apply sample_node. set_solver.
Defined.

Lemma ancestors_out_edge (flowtable : flowtable_t) (source : Z) (anc : gset Z) :
  ancestors (G flowtable) source = inr anc →
  ∀ m, m ∈ anc → ∃ v, flows_to flowtable m v.
Proof.
  intros Hanc. destruct (ancestors_inr_spec _ _ _ (G_wf flowtable) Hanc) as [Hs Hmem].
  intros m [Hne Hr]%Hmem. destruct (reaches_first_edge _ _ _ Hr Hne) as [v Hv].
  exists v. by apply G_has_edge.
Qed.

(** X3. Whatever the gage, a returned upstream set holds only nodes of the
    graph, each with an outgoing edge; when no row has 0 in the [comid]
    column the sentinel 0 is in no upstream set. *)
Theorem ancestors_sentinel_free (flowtable : flowtable_t) (source : Z) (anc : gset Z) :
  ancestors (G flowtable) source = inr anc →
  anc ⊆ DiGraph.node (G flowtable)
  ∧ (∀ m, m ∈ anc → ∃ v, flows_to flowtable m v)
  ∧ (0 ∉ flowtable.*1 → 0 ∉ anc).
Proof.
  intros Hanc. pose proof (ancestors_out_edge flowtable source anc Hanc) as Hout.
  split_and!; [|done|].
  - intros m Hm. destruct (Hout m Hm) as (v & Hv & _).
    apply G_node. left. apply list_elem_of_fmap. by exists (m, v).
  - intros H0 Hin. destruct (Hout 0 Hin) as (v & Hv & _).
    apply H0. apply list_elem_of_fmap. by exists (0, v).
Qed.

Lemma ancestors_sentinel_free_witness :
  ({[2; 3; 4]} : gset Z) ⊆ DiGraph.node (G sample_flowtable)
  ∧ (∀ m, m ∈ ({[2; 3; 4]} : gset Z) → ∃ v, flows_to sample_flowtable m v)
  ∧ (0 ∉ sample_flowtable.*1 → 0 ∉ ({[2; 3; 4]} : gset Z)).
Proof.
  apply (ancestors_sentinel_free sample_flowtable 1 {[2; 3; 4]}).
  vm_compute. reflexivity.
Defined.

(** X4. A segment all of whose rows are terminal flows is upstream of no
    gage: it is in no returned upstream set. *)
Theorem outlet_upstream_of_nothing (flowtable : flowtable_t) (c source : Z)
    (anc : gset Z) :
  (∀ v, (c, v) ∈ flowtable → v = 0) →
  ancestors (G flowtable) source = inr anc →
  c ∉ anc.
Proof.
  intros Hterm Hanc Hc.
  destruct (ancestors_out_edge flowtable source anc Hanc c Hc) as (v & Hv & Hne).
  by apply Hne, Hterm.
Qed.

(** The outlet segment 1 of the worked example, seen from segment 2. *)
Lemma outlet_upstream_of_nothing_witness :
  ancestors (G sample_flowtable) 2 = inr {[3; 4]} ∧ 1 ∉ ({[3; 4]} : gset Z).
Proof.
  assert (ancestors (G sample_flowtable) 2 = inr {[3; 4]}) as Hanc
    by (vm_compute; reflexivity).
  split; [done|].
  apply (outlet_upstream_of_nothing sample_flowtable 1 2 {[3; 4]}); [|done].
  intros v Hv. unfold sample_flowtable in Hv. set_solver.
Defined.

(** X5. Upstream sets are nested: a segment found upstream of a gage is a
    node with an upstream set of its own, and that set lies within the
    gage's upstream set, the gage's own segment apart (which can only occur
    in it on a cycle). *)
Theorem ancestors_nested (G : DiGraph.t) (n m : Z) (anc : gset Z) :
  DiGraph.wf G → ancestors G n = inr anc → m ∈ anc →
  ∃ anc_m, ancestors G m = inr anc_m ∧ anc_m ⊆ anc ∪ {[n]}.
Proof.
  intros Hwf Hanc Hm.
  destruct (ancestors_inr_spec G n anc Hwf Hanc) as [Hn Hmem].
  apply Hmem in Hm as [Hne Hr].
  destruct (reaches_first_edge G m n Hr Hne) as [v Hv].
  destruct (ancestors_node G Hwf m) as (anc_m & Hanc_m & Hmem_m).
  { by apply (DiGraphFacts.has_edge_node G m v Hwf). }
  exists anc_m. split; [done|]. intros x [_ Hx]%Hmem_m.
  destruct (decide (x = n)) as [->|Hxn]; [set_solver|].
  apply elem_of_union. left. apply Hmem. split; [done|].
  unfold reaches in *. by etrans.
Qed.

(** Segment 2 of the worked example, upstream of segment 1. *)
Lemma ancestors_nested_witness :
  ∃ anc_m, ancestors (G sample_flowtable) 2 = inr anc_m
           ∧ anc_m ⊆ ({[2; 3; 4]} : gset Z) ∪ {[1]}.
Proof.
  apply (ancestors_nested (G sample_flowtable) 1 2 {[2; 3; 4]} (G_wf _)).
  - vm_compute. reflexivity.
  - set_solver.
Defined.

Lemma rows_as_set_node (ft ft' : flowtable_t) x :
  (∀ row, row ∈ ft ↔ row ∈ ft') →
  x ∈ DiGraph.node (G ft) → x ∈ DiGraph.node (G ft').
Proof.
  intros Hrows. rewrite !G_node, !list_elem_of_fmap.
  intros [(row & -> & Hrow)|(Hx & row & -> & Hrow)].
  - left. exists row. split; [done|]. by apply Hrows.
  - right. split; [done|]. exists row. split; [done|]. by apply Hrows.
Qed.

Lemma rows_as_set_reaches (ft ft' : flowtable_t) m n :
  (∀ row, row ∈ ft ↔ row ∈ ft') →
  reaches (G ft) m n → reaches (G ft') m n.
Proof.
  intros Hrows. rewrite !reaches_flows_to. apply rtc_subrel.
  intros a b [Hab Hb]. split; [by apply Hrows|done].
Qed.

(** X6. Only the set of rows of the flow table matters: two flow tables
    with the same rows, in any order and with any repetitions, give the
    same upstream set (or the same exception) for every gage, hence the
    same result of [get_watershed_boundaries]. *)
Theorem ancestors_rows_as_set (H : Geos) (ft ft' : flowtable_t) (source : Z)
    (catchments : GeoDataFrame Z) :
  (∀ row, row ∈ ft ↔ row ∈ ft') →
  ancestors (G ft) source = ancestors (G ft') source
  ∧ get_watershed_boundaries source (G ft) catchments
    = get_watershed_boundaries source (G ft') catchments.
Proof.
  intros Hrows.
  assert (ancestors (G ft) source = ancestors (G ft') source) as Heq.
  { destruct (decide (source ∈ DiGraph.node (G ft))) as [Hs|Hs].
    - assert (source ∈ DiGraph.node (G ft')) as Hs' by by eapply rows_as_set_node.
      destruct (ancestors_node _ (G_wf ft) source Hs) as (anc & -> & Hmem).
      destruct (ancestors_node _ (G_wf ft') source Hs') as (anc' & -> & Hmem').
      f_equal. apply set_eq. intros m. rewrite Hmem, Hmem'.
      split; intros [? ?]; (split; [done|]); eapply rows_as_set_reaches; [|done| |done];
        intros row; by rewrite Hrows.
    - assert (source ∉ DiGraph.node (G ft')) as Hs'.
      { intros Hs'. apply Hs. eapply rows_as_set_node; [|done]. intros row. by rewrite Hrows. }
      by rewrite (ancestors_missing _ (G_wf ft) source Hs),
                 (ancestors_missing _ (G_wf ft') source Hs'). }
  split; [done|]. unfold get_watershed_boundaries. by rewrite Heq.
Qed.

(** The worked example with its rows shuffled and two of them repeated. *)
Lemma ancestors_rows_as_set_witness :
  ancestors (G sample_flowtable) 1
  = ancestors (G [(4, 2); (2, 1); (4, 2); (3, 2); (1, 0); (2, 1)]) 1
  ∧ @get_watershed_boundaries geos_unevaluated 1 (G sample_flowtable) sample_catchments
    = @get_watershed_boundaries geos_unevaluated 1
        (G [(4, 2); (2, 1); (4, 2); (3, 2); (1, 0); (2, 1)]) sample_catchments.
Proof.
  apply (ancestors_rows_as_set geos_unevaluated sample_flowtable
           [(4, 2); (2, 1); (4, 2); (3, 2); (1, 0); (2, 1)] 1 sample_catchments).
  intros row. unfold sample_flowtable. set_solver.
Defined.

(** ** The delineation and the loop *)

Lemma isin_values_as_set (series values values' : list Z) :
  (∀ c, c ∈ values ↔ c ∈ values') → isin series values = isin series values'.
Proof.
  intros Hsame. unfold isin. apply list_fmap_ext. intros _ x _.
  apply bool_decide_ext, Hsame.
Qed.

Section delineation.
Context `{Geos}.

(** X7. On a networkx digraph, [get_watershed_boundaries] raises exactly
    when the gage's COMID is not a node, whatever the catchment table holds
    (an empty table included); when it returns, the ratio is a number, never
    NaN. *)
Theorem get_watershed_boundaries_raises_iff (G : DiGraph.t) (source : Z)
    (catchments : GeoDataFrame Z) :
  DiGraph.wf G →
  (source ∉ DiGraph.node G →
   get_watershed_boundaries source G catchments = inl (NetworkXError source))
  ∧ (source ∈ DiGraph.node G →
     ∃ polygon ratio,
       get_watershed_boundaries source G catchments = inr (polygon, Some ratio))
  ∧ ((∃ e, get_watershed_boundaries source G catchments = inl e)
     ↔ source ∉ DiGraph.node G).
Proof.
  intros Hwf.
  assert (source ∉ DiGraph.node G →
          get_watershed_boundaries source G catchments = inl (NetworkXError source)) as Hout.
  { intros Hs. unfold get_watershed_boundaries. by rewrite (ancestors_missing G Hwf source Hs). }
  split_and!; [done|by apply get_watershed_boundaries_node|].
  split; [|by eauto]. intros [e He] Hs.
  destruct (get_watershed_boundaries_node G source catchments Hwf Hs) as (? & ? & Hget).
  congruence.
Qed.

(** X8. The ratio depends on the catchment table only through the set of
    its COMIDs: repeated rows, their order and their geometries do not
    change it (nor whether the call raises). *)
Theorem proportion_matched_ids_only (G : DiGraph.t) (source : Z)
    (catchments catchments' : GeoDataFrame Z) :
  (∀ c, c ∈ catchments.*1 ↔ c ∈ catchments'.*1) →
  sum_map id snd (get_watershed_boundaries source G catchments)
  = sum_map id snd (get_watershed_boundaries source G catchments').
Proof.
  intros Hsame. unfold get_watershed_boundaries.
  destruct (ancestors G source) as [e|anc]; [done|].
  unfold watershed_of. cbn [sum_map snd]. f_equal. f_equal.
  by apply isin_values_as_set.
Qed.






End delineation.

(** A gage whose COMID (5) is not in the worked example. *)
Lemma get_watershed_boundaries_raises_iff_witness :
  (5 ∉ DiGraph.node (G sample_flowtable) →
   @get_watershed_boundaries geos_unevaluated 5 (G sample_flowtable) sample_catchments
   = inl (NetworkXError 5))
  ∧ (5 ∈ DiGraph.node (G sample_flowtable) →
     ∃ polygon ratio,
       @get_watershed_boundaries geos_unevaluated 5 (G sample_flowtable) sample_catchments
       = inr (polygon, Some ratio))
  ∧ ((∃ e, @get_watershed_boundaries geos_unevaluated 5 (G sample_flowtable)
             sample_catchments = inl e)
     ↔ 5 ∉ DiGraph.node (G sample_flowtable)).
Proof.
  apply (@get_watershed_boundaries_raises_iff geos_unevaluated (G sample_flowtable) 5
           sample_catchments (G_wf _)).
Defined.

(** The catchments of the worked example, shuffled, with a second row for
    segment 1. *)
Lemma proportion_matched_ids_only_witness :
  sum_map id snd
    (@get_watershed_boundaries geos_unevaluated 1 (G sample_flowtable) sample_catchments)
  = sum_map id snd
      (@get_watershed_boundaries geos_unevaluated 1 (G sample_flowtable)
         [(3, unit_square 2 0); (1, unit_square 0 0); (2, unit_square 1 0);
          (1, Point None)]).
Proof.
  apply (@proportion_matched_ids_only geos_unevaluated (G sample_flowtable) 1
           sample_catchments
           [(3, unit_square 2 0); (1, unit_square 0 0); (2, unit_square 1 0);
            (1, Point None)]).
  intros c. unfold sample_catchments. cbn [fmap list_fmap fst]. set_solver.
Defined.



(** ** Writing the frames *)



Section writer_more.
Context `{Geos} {A : Type}.
Implicit Types (W : world A) (frame : GeoDataFrame A).

(** X11. Whatever the frame and the flag, [write_geodatabase] makes exactly
    one [to_file] call, with the given path and layer and the OpenFileGDB
    driver, on the frame as the caller finds it afterwards; that frame has
    the rows and the other columns it had, and no other frame of the heap
    is touched. *)
Theorem write_geodatabase_one_call W (gdf : positive) frame
    (filepath layer_name : string) (polygons_as_points : bool) :
  heap W !! gdf = Some frame →
  ∃ frame',
    heap (write_geodatabase W gdf filepath layer_name polygons_as_points) !! gdf
    = Some frame'
    ∧ files (write_geodatabase W gdf filepath layer_name polygons_as_points)
      = files W ++ [mkToFile frame' filepath layer_name "OpenFileGDB"]
    ∧ frame'.*1 = frame.*1
    ∧ length frame' = length frame
    ∧ ∀ other, other ≠ gdf →
        heap (write_geodatabase W gdf filepath layer_name polygons_as_points) !! other
        = heap W !! other.
Proof.
  intros Hframe. destruct polygons_as_points.
  - destruct (existsb (λ x, bool_decide (x ∈ sort (unique (geom_type <$> geometry frame))))
                ["Polygon"; "MultiPolygon"]) eqn:Hany.
    + apply any_polygon_types in Hany.
      destruct (set_geometry_geometry frame (centroid <$> geometry frame))
        as (_ & Hcols & Hlen); [by rewrite length_fmap, geometry_length|].
      eexists. rewrite (write_geodatabase_centroid W gdf frame) by done.
      cbn [heap files]. rewrite lookup_insert_eq. split_and!; [done..|].
      intros other Hne. by rewrite lookup_insert_ne.
    + exists frame. rewrite (write_geodatabase_points_as_is W gdf frame); [by split_and!|done|].
      intros Hex%any_polygon_types. congruence.
  - destruct (decide (sort (unique (geom_type <$> geometry frame))
                      = ["MultiPolygon"; "Polygon"])) as [Htypes|Htypes].
    + destruct (set_geometry_geometry frame (upcast <$> geometry frame))
        as (_ & Hcols & Hlen); [by rewrite length_fmap, geometry_length|].
      eexists. rewrite (write_geodatabase_upcast W gdf frame) by done.
      cbn [heap files]. rewrite lookup_insert_eq. split_and!; [done..|].
      intros other Hne. by rewrite lookup_insert_ne.
    + exists frame. rewrite (write_geodatabase_as_is W gdf frame) by done. by split_and!.
Qed.

(** X12. With [polygons_as_points], a frame holding a Polygon or a
    MultiPolygon comes back with nothing but Points, the geometries that
    were no polygons replaced as well; a frame holding none comes back as
    it was.  Nothing is printed in either case, however many types the
    frame mixes. *)
Theorem polygons_as_points_all_points W (gdf : positive) frame
    (filepath layer_name : string) :
  heap W !! gdf = Some frame →
  stdout (write_geodatabase W gdf filepath layer_name true) = stdout W
  ∧ ((∃ g, g ∈ geometry frame ∧ (geom_type g = "Polygon" ∨ geom_type g = "MultiPolygon")) →
     ∃ frame',
       heap (write_geodatabase W gdf filepath layer_name true) !! gdf = Some frame'
       ∧ ∀ g, g ∈ geometry frame' → geom_type g = "Point")
  ∧ (¬ (∃ g, g ∈ geometry frame
             ∧ (geom_type g = "Polygon" ∨ geom_type g = "MultiPolygon")) →
     heap (write_geodatabase W gdf filepath layer_name true) = heap W).
Proof.
  intros Hframe. split_and!.
  - destruct (existsb (λ x, bool_decide (x ∈ sort (unique (geom_type <$> geometry frame))))
                ["Polygon"; "MultiPolygon"]) eqn:Hany.
    + apply any_polygon_types in Hany.
      by rewrite (write_geodatabase_centroid W gdf frame).
    + rewrite (write_geodatabase_points_as_is W gdf frame); [done..|].
      intros Hex%any_polygon_types. congruence.
  - intros Hany.
    destruct (set_geometry_geometry frame (centroid <$> geometry frame))
      as (Hgeo & _ & _); [by rewrite length_fmap, geometry_length|].
    eexists. rewrite (write_geodatabase_centroid W gdf frame) by done.
    cbn [heap]. rewrite lookup_insert_eq. split; [done|].
    intros g. rewrite Hgeo. by intros (g' & -> & _)%list_elem_of_fmap.
  - intros Hnone. by rewrite (write_geodatabase_points_as_is W gdf frame).
Qed.

(** X13. After the upcast of a frame whose types are exactly Polygon and
    MultiPolygon, every geometry of the caller's frame is a MultiPolygon,
    those that were MultiPolygons are the same as before, and the two
    messages have been printed in order. *)
Theorem upcast_single_type W (gdf : positive) frame (filepath layer_name : string) :
  heap W !! gdf = Some frame →
  (∀ t, (∃ g, g ∈ geometry frame ∧ geom_type g = t)
        ↔ t = "Polygon" ∨ t = "MultiPolygon") →
  ∃ frame',
    heap (write_geodatabase W gdf filepath layer_name false) !! gdf = Some frame'
    ∧ (∀ g, g ∈ geometry frame' → geom_type g = "MultiPolygon")
    ∧ (∀ i g, geometry frame !! i = Some g → geom_type g = "MultiPolygon" →
              geometry frame' !! i = Some g)
    ∧ stdout (write_geodatabase W gdf filepath layer_name false)
      = stdout W ++ ["warning: multiple geometry types in geodataframe";
                     "upcasting polygons to multipolygons to achieve consistency"].
Proof.
  intros Hframe Hex.
  destruct (set_geometry_geometry frame (upcast <$> geometry frame))
    as (Hgeo & _ & _); [by rewrite length_fmap, geometry_length|].
  eexists. rewrite (write_geodatabase_upcast W gdf frame)
    by (done || by apply geom_types_exactly).
  cbn [heap stdout]. rewrite lookup_insert_eq. split_and!; [done| | |done].
  - intros g. rewrite Hgeo. intros (g' & -> & Hg')%list_elem_of_fmap.
    unfold upcast. case_decide as Hp; [done|].
    destruct (proj1 (Hex (geom_type g'))) as [?|?]; [by eauto|done..].
  - intros i g Hi Hty. rewrite Hgeo, list_lookup_fmap, Hi. simpl.
    unfold upcast. rewrite decide_False; [done|]. by rewrite Hty.
Qed.


End writer_more.

Section writer_composed.
Context `{Geos} {A : Type}.
Implicit Types (W : world A) (frame : GeoDataFrame A).

Lemma no_polygon_types frame :
  (∀ g, g ∈ geometry frame → geom_type g ≠ "Polygon") →
  sort (unique (geom_type <$> geometry frame)) ≠ ["MultiPolygon"; "Polygon"].
Proof.
  intros Hnone Heq.
  assert ("Polygon" ∈ sort (unique (geom_type <$> geometry frame))) as Hin
    by (rewrite Heq; set_solver).
  apply elem_of_geom_types in Hin as (g & Hg & Hty). by apply (Hnone g).
Qed.


(** X15. Calling [write_geodatabase] a second time on the same frame with
    the same flag changes no frame any more: after the first call the frame
    has a form the second call writes as it is. *)
Theorem write_geodatabase_twice W (gdf : positive) frame
    (filepath layer_name filepath' layer_name' : string) (polygons_as_points : bool) :
  heap W !! gdf = Some frame →
  heap (write_geodatabase
          (write_geodatabase W gdf filepath layer_name polygons_as_points)
          gdf filepath' layer_name' polygons_as_points)
  = heap (write_geodatabase W gdf filepath layer_name polygons_as_points).
Proof.
  intros Hframe. destruct polygons_as_points.
  - destruct (existsb (λ x, bool_decide (x ∈ sort (unique (geom_type <$> geometry frame))))
                ["Polygon"; "MultiPolygon"]) eqn:Hany.
    + apply any_polygon_types in Hany.
      destruct (set_geometry_geometry frame (centroid <$> geometry frame))
        as (Hgeo & _ & _); [by rewrite length_fmap, geometry_length|].
      rewrite (write_geodatabase_centroid W gdf frame) by done.
      erewrite write_geodatabase_points_as_is; [done|by apply lookup_insert_eq|].
      rewrite Hgeo. intros (g & (g' & -> & _)%list_elem_of_fmap & [?|?]); done.
    + assert (¬ ∃ g, g ∈ geometry frame
                     ∧ (geom_type g = "Polygon" ∨ geom_type g = "MultiPolygon")) as Hnone.
      { intros Hex%any_polygon_types. congruence. }
      rewrite (write_geodatabase_points_as_is W gdf frame) by done.
      by erewrite write_geodatabase_points_as_is.
  - destruct (decide (sort (unique (geom_type <$> geometry frame))
                      = ["MultiPolygon"; "Polygon"])) as [Htypes|Htypes].
    + destruct (set_geometry_geometry frame (upcast <$> geometry frame))
        as (Hgeo & _ & _); [by rewrite length_fmap, geometry_length|].
      rewrite (write_geodatabase_upcast W gdf frame) by done.
      erewrite write_geodatabase_as_is; [done|by apply lookup_insert_eq|].
      apply no_polygon_types. intros g. rewrite Hgeo.
      intros (g' & -> & _)%list_elem_of_fmap Hty. by apply (geom_type_upcast _ g' eq_refl).
    + rewrite (write_geodatabase_as_is W gdf frame) by done.
      by erewrite write_geodatabase_as_is.
Qed.


End writer_composed.

(** The frames of the sample world. *)
Lemma sample_watersheds_types :
  ∀ t, (∃ g, g ∈ geometry sample_watersheds ∧ geom_type g = t)
       ↔ t = "Polygon" ∨ t = "MultiPolygon".
Proof.
  intros t. unfold sample_watersheds, geometry. cbn [fmap list_fmap snd]. split.
  - intros (g & Hg & <-). apply elem_of_cons in Hg as [->|Hg]; [by left|].
    apply list_elem_of_singleton in Hg as ->. by right.
  - intros [->| ->].
    + exists (unit_square 0 0). split; [set_solver|done].
    + exists (MultiPolygon [unit_square 1 0; unit_square 3 0]). split; [set_solver|done].
Qed.


Lemma write_geodatabase_one_call_witness :
  ∃ frame',
    heap (@write_geodatabase geos_unevaluated _ sample_world 2 "out.gdb" "watersheds" false)
      !! 2%positive = Some frame'
    ∧ files (@write_geodatabase geos_unevaluated _ sample_world 2 "out.gdb" "watersheds" false)
      = files sample_world ++ [mkToFile frame' "out.gdb" "watersheds" "OpenFileGDB"]
    ∧ frame'.*1 = sample_watersheds.*1
    ∧ length frame' = length sample_watersheds
    ∧ ∀ other, other ≠ 2%positive →
        heap (@write_geodatabase geos_unevaluated _ sample_world 2 "out.gdb" "watersheds" false)
          !! other
        = heap sample_world !! other.
Proof.
  apply (@write_geodatabase_one_call geos_unevaluated station sample_world 2
           sample_watersheds "out.gdb" "watersheds" false).
  reflexivity.
Defined.

Lemma polygons_as_points_all_points_witness :
  stdout (@write_geodatabase geos_unevaluated _ sample_world 2 "out.gdb" "watersheds" true)
  = stdout sample_world
  ∧ ((∃ g, g ∈ geometry sample_watersheds
           ∧ (geom_type g = "Polygon" ∨ geom_type g = "MultiPolygon")) →
     ∃ frame',
       heap (@write_geodatabase geos_unevaluated _ sample_world 2 "out.gdb" "watersheds" true)
         !! 2%positive = Some frame'
       ∧ ∀ g, g ∈ geometry frame' → geom_type g = "Point")
  ∧ (¬ (∃ g, g ∈ geometry sample_watersheds
             ∧ (geom_type g = "Polygon" ∨ geom_type g = "MultiPolygon")) →
     heap (@write_geodatabase geos_unevaluated _ sample_world 2 "out.gdb" "watersheds" true)
     = heap sample_world).
Proof.
  apply (@polygons_as_points_all_points geos_unevaluated station sample_world 2
           sample_watersheds "out.gdb" "watersheds").
  reflexivity.
Defined.

Lemma upcast_single_type_witness :
  ∃ frame',
    heap (@write_geodatabase geos_unevaluated _ sample_world 2 "out.gdb" "watersheds" false)
      !! 2%positive = Some frame'
    ∧ (∀ g, g ∈ geometry frame' → geom_type g = "MultiPolygon")
    ∧ (∀ i g, geometry sample_watersheds !! i = Some g → geom_type g = "MultiPolygon" →
              geometry frame' !! i = Some g)
    ∧ stdout (@write_geodatabase geos_unevaluated _ sample_world 2 "out.gdb" "watersheds" false)
      = stdout sample_world
        ++ ["warning: multiple geometry types in geodataframe";
            "upcasting polygons to multipolygons to achieve consistency"].
Proof.
  apply (@upcast_single_type geos_unevaluated station sample_world 2
           sample_watersheds "out.gdb" "watersheds").
  - reflexivity.
  - apply sample_watersheds_types.
Defined.


Lemma write_geodatabase_twice_witness :
  heap (@write_geodatabase geos_unevaluated _
          (@write_geodatabase geos_unevaluated _ sample_world 2 "out.gdb" "watersheds" false)
          2 "copy.gdb" "again" false)
  = heap (@write_geodatabase geos_unevaluated _ sample_world 2 "out.gdb" "watersheds" false).
Proof.
  apply (@write_geodatabase_twice geos_unevaluated station sample_world 2
           sample_watersheds "out.gdb" "watersheds" "copy.gdb" "again" false).
  reflexivity.
Defined.


(** ** Rows of the store outside the upstream set *)

Section store_rows.
Context `{Geos}.

(** X17. Only the catchment rows of the gage's segment and of its upstream
    set count: dropping every other row from the table changes neither the
    polygon nor the ratio. *)
Theorem rows_outside_upstream_inert (G : DiGraph.t) (source : Z) (anc : gset Z)
    (catchments : GeoDataFrame Z) :
  ancestors G source = inr anc →
  get_watershed_boundaries source G
    (filter (λ row, row.1 ∈ upstream anc source) catchments)
  = get_watershed_boundaries source G catchments.
Proof.
  intros Hanc. unfold get_watershed_boundaries. rewrite Hanc. f_equal.
  unfold watershed_of, GeoDataFrame in *.
  assert (∀ x, x ∈ [source] ++ elements anc ↔ x ∈ upstream anc source) as Hup.
  { intros x. by rewrite upstream_list, elem_of_list_to_set. }
  f_equal.
  - do 2 f_equal. rewrite list_filter_filter. apply list_filter_iff.
    intros row. rewrite Hup. tauto.
  - f_equal. unfold isin. apply list_fmap_ext. intros _ x Hx%list_elem_of_lookup_2.
    apply bool_decide_ext. rewrite !list_elem_of_fmap. split.
    + intros (row & -> & [_ Hrow]%list_elem_of_filter). eauto.
    + intros (row & -> & Hrow). exists row. split; [done|].
      apply list_elem_of_filter. split; [|done]. by apply Hup.
Qed.

End store_rows.

(** The worked example with catchments for segments 7 and 8 of another
    basin added to the store. *)
Lemma rows_outside_upstream_inert_witness :
  @get_watershed_boundaries geos_unevaluated 2 (G sample_flowtable)
    (filter (λ row, row.1 ∈ upstream {[3; 4]} 2)
       ((7, unit_square 7 0) :: sample_catchments ++ [(8, unit_square 8 0)]))
  = @get_watershed_boundaries geos_unevaluated 2 (G sample_flowtable)
      ((7, unit_square 7 0) :: sample_catchments ++ [(8, unit_square 8 0)]).
Proof.
  apply (@rows_outside_upstream_inert geos_unevaluated (G sample_flowtable) 2 {[3; 4]}).
  vm_compute. reflexivity.
Defined.
